(** * A shallow embedding of the statify symbolic EVM prover

    The development follows the Rust sources of the crate:
    - [opcodes.rs]      the opcode table ([OpCode], [OPCODE_JUMPMAP]);
    - [bytecode.rs]     the decoder [to_mnemonics] and [utils.rs]'s [get_slice];
    - [analysis.rs]     [get_jumpdest];
    - [data/stack.rs], [data/memory.rs], [data/storage.rs]: the symbolic
                        stack, memory and storage;
    - [prover.rs]       [Prover::step], [Prover::ret], [Prover::path],
                        [Prover::walk] and [Prover::run].

    z3 bit-vector terms are modelled by the syntax tree [BV]: a numeral
    of a given width, or any other term (an application of a named
    operator to arguments, with its width).  [simplify] is modelled as
    constant folding: operations on numerals produce numerals, other
    terms stay applications.  A Rust panic (an [unwrap] on [None], an
    [assert], a [todo!()], or a z3 sort error) is the outcome [Panic],
    which aborts the whole run. *)

From Stdlib Require Import ZArith Strings.Byte Strings.Ascii.
From stdpp Require Import base gmap list strings.

Open Scope Z_scope.

(** ** Outcomes of the Rust code *)

(** [helpers::RevertReason] *)
Inductive RevertReason := StackUnderflow | StackOverflow | Unsat | Unknown.

(** [Result<A, RevertReason>] extended with a Rust panic. *)
Inductive outcome (A : Type) :=
| Ok (a : A)
| Err (r : RevertReason)
| Panic.
Arguments Ok {A} a.
Arguments Err {A} r.
Arguments Panic {A}.

Definition obind {A B} (m : outcome A) (f : A -> outcome B) : outcome B :=
  match m with
  | Ok a => f a
  | Err r => Err r
  | Panic => Panic
  end.

Notation "'let*' x := m 'in' f" := (obind m (fun x => f))
  (at level 200, x name, m at level 100, f at level 200).
Notation "'let*' ' p := m 'in' f" := (obind m (fun x => match x with p => f end))
  (at level 200, p pattern, m at level 100, f at level 200).

(** [Option::unwrap] *)
Definition unwrap {A} (o : option A) : outcome A :=
  match o with Some a => Ok a | None => Panic end.

(** ** opcodes.rs *)

(** [OpCodes]; the families [Push0..Push32], [Dup1..Dup16],
    [Swap1..Swap16] and [Log0..Log4] carry their index. *)
Inductive OpCodes :=
| Invalid | Stop | Add | Mul | Sub | Div | Sdiv | Mod | Smod | Addmod | Mulmod
| Exp | Signextend | Lt | Gt | Slt | Sgt | Eq | Iszero | And | Or | Xor | Not
| Byte | Shl | Shr | Sar | Sha3 | Address | Balance | Origin | Caller
| Callvalue | Calldataload | Calldatasize | Calldatacopy | Codesize | Codecopy
| Gasprice | Extcodesize | Extcodecopy | Returndatasize | Returndatacopy
| Extcodehash | Blockhash | Coinbase | Timestamp | Number | Difficulty
| Gaslimit | Chainid | Selfbalance | Basefee | Pop | Mload | Mstore | Mstore8
| Sload | Sstore | Jump | Jumpi | Pc | Msize | Gas | Jumpdest
| Push (n : nat) | Dup (n : nat) | Swap (n : nat) | Log (n : nat)
| Create | Call | Callcode | Return | Delegatecall | Create2 | Staticcall
| Revert | Selfdestruct.

#[global] Instance OpCodes_eq_dec : EqDecision OpCodes.
Proof. solve_decision. Defined.

(** [OPCODE_JUMPMAP], indexed by the opcode byte. *)
Definition OPCODE_JUMPMAP : list OpCodes := [
  (* 0x00 *) Stop; Add; Mul; Sub; Div; Sdiv; Mod; Smod;
  (* 0x08 *) Addmod; Mulmod; Exp; Signextend; Invalid; Invalid; Invalid; Invalid;
  (* 0x10 *) Lt; Gt; Slt; Sgt; Eq; Iszero; And; Or;
  (* 0x18 *) Xor; Not; Byte; Shl; Shr; Sar; Invalid; Invalid;
  (* 0x20 *) Sha3; Invalid; Invalid; Invalid; Invalid; Invalid; Invalid; Invalid;
  (* 0x28 *) Invalid; Invalid; Invalid; Invalid; Invalid; Invalid; Invalid; Invalid;
  (* 0x30 *) Address; Balance; Origin; Caller; Callvalue; Calldataload; Calldatasize; Calldatacopy;
  (* 0x38 *) Codesize; Codecopy; Gasprice; Extcodesize; Extcodecopy; Returndatasize; Returndatacopy; Extcodehash;
  (* 0x40 *) Blockhash; Coinbase; Timestamp; Number; Difficulty; Gaslimit; Chainid; Selfbalance;
  (* 0x48 *) Basefee; Invalid; Invalid; Invalid; Invalid; Invalid; Invalid; Invalid;
  (* 0x50 *) Pop; Mload; Mstore; Mstore8; Sload; Sstore; Jump; Jumpi;
  (* 0x58 *) Pc; Msize; Gas; Jumpdest; Invalid; Invalid; Invalid; (Push 0);
  (* 0x60 *) (Push 1); (Push 2); (Push 3); (Push 4); (Push 5); (Push 6); (Push 7); (Push 8);
  (* 0x68 *) (Push 9); (Push 10); (Push 11); (Push 12); (Push 13); (Push 14); (Push 15); (Push 16);
  (* 0x70 *) (Push 17); (Push 18); (Push 19); (Push 20); (Push 21); (Push 22); (Push 23); (Push 24);
  (* 0x78 *) (Push 25); (Push 26); (Push 27); (Push 28); (Push 29); (Push 30); (Push 31); (Push 32);
  (* 0x80 *) (Dup 1); (Dup 2); (Dup 3); (Dup 4); (Dup 5); (Dup 6); (Dup 7); (Dup 8);
  (* 0x88 *) (Dup 9); (Dup 10); (Dup 11); (Dup 12); (Dup 13); (Dup 14); (Dup 15); (Dup 16);
  (* 0x90 *) (Swap 1); (Swap 2); (Swap 3); (Swap 4); (Swap 5); (Swap 6); (Swap 7); (Swap 8);
  (* 0x98 *) (Swap 9); (Swap 10); (Swap 11); (Swap 12); (Swap 13); (Swap 14); (Swap 15); (Swap 16);
  (* 0xa0 *) (Log 0); (Log 1); (Log 2); (Log 3); (Log 4); Invalid; Invalid; Invalid;
  (* 0xa8 *) Invalid; Invalid; Invalid; Invalid; Invalid; Invalid; Invalid; Invalid;
  (* 0xb0 *) Invalid; Invalid; Invalid; Invalid; Invalid; Invalid; Invalid; Invalid;
  (* 0xb8 *) Invalid; Invalid; Invalid; Invalid; Invalid; Invalid; Invalid; Invalid;
  (* 0xc0 *) Invalid; Invalid; Invalid; Invalid; Invalid; Invalid; Invalid; Invalid;
  (* 0xc8 *) Invalid; Invalid; Invalid; Invalid; Invalid; Invalid; Invalid; Invalid;
  (* 0xd0 *) Invalid; Invalid; Invalid; Invalid; Invalid; Invalid; Invalid; Invalid;
  (* 0xd8 *) Invalid; Invalid; Invalid; Invalid; Invalid; Invalid; Invalid; Invalid;
  (* 0xe0 *) Invalid; Invalid; Invalid; Invalid; Invalid; Invalid; Invalid; Invalid;
  (* 0xe8 *) Invalid; Invalid; Invalid; Invalid; Invalid; Invalid; Invalid; Invalid;
  (* 0xf0 *) Create; Call; Callcode; Return; Delegatecall; Create2; Invalid; Invalid;
  (* 0xf8 *) Invalid; Invalid; Staticcall; Invalid; Invalid; Revert; Invalid; Selfdestruct
].

(** [OpCode(u8)]: the opcode keeps its byte. *)
Definition OpCode := byte.

Definition u8 (op : OpCode) : N := Byte.to_N op.

(** [OpCode::opcode]: [OPCODE_JUMPMAP.get(self.0).unwrap()]; the table
    has 256 entries, so the default is never used. *)
Definition opcode (op : OpCode) : OpCodes :=
  nth (N.to_nat (u8 op)) OPCODE_JUMPMAP Invalid.

Definition is_push (op : OpCode) : bool := (95 <=? u8 op)%N && (u8 op <? 128)%N.
Definition is_dup (op : OpCode) : bool := (128 <=? u8 op)%N && (u8 op <? 144)%N.
Definition is_swap (op : OpCode) : bool := (144 <=? u8 op)%N && (u8 op <? 160)%N.

Definition push_size (op : OpCode) : option nat :=
  if is_push op then Some (N.to_nat (u8 op - 95)) else None.
Definition dup_size (op : OpCode) : option nat :=
  if is_dup op then Some (N.to_nat (u8 op - 128 + 1)) else None.
Definition swap_size (op : OpCode) : option nat :=
  if is_swap op then Some (N.to_nat (u8 op - 144 + 1)) else None.

(** ** bytecode.rs and utils.rs *)

(** [Mnemonic]: [pushes] is the slice of immediate bytes. *)
Record Mnemonic := mkMnemonic {
  pc : nat;
  op : OpCode;
  pushes : list byte
}.

(** [utils::get_slice] on a range [start..end_].  The slice [&v[range]]
    panics when [start > end_] and the model returns [[]] there; the only
    caller, the decoder, slices [pc + 1 .. pc + 1 + push_size], where
    [start <= end_]. *)
Definition get_slice {T} (v : list T) (start end_ : nat) : list T :=
  if (end_ <=? length v)%nat then firstn (end_ - start) (skipn start v)
  else if (start <? length v)%nat then skipn start v
  else [].

(** The body of the [while let Some(b) = bytecode.get(pc)] loop of
    [to_mnemonics]; the loop consumes at least one byte per round, so
    [length bytecode] rounds are enough. *)
Fixpoint to_mnemonics_loop (bytecode : list byte) (fuel pc : nat) : list Mnemonic :=
  match fuel with
  | O => []
  | S fuel' =>
    match nth_error bytecode pc with
    | None => []
    | Some b =>
      let op := b in
      let '(pc', pushes) :=
        match push_size op with
        | Some push_size =>
            (pc + push_size, get_slice bytecode (pc + 1) (pc + 1 + push_size))%nat
        | None => (pc, [])
        end in
      {| pc := pc; op := op; pushes := pushes |}
        :: to_mnemonics_loop bytecode fuel' (pc' + 1)
    end
  end.

Definition to_mnemonics (bytecode : list byte) : list Mnemonic :=
  to_mnemonics_loop bytecode (length bytecode) 0.

(** ** analysis.rs *)

Definition get_jumpdest (code : list Mnemonic) : list Z :=
  map (fun mn => Z.of_nat (pc mn))
    (filter (fun mn => bool_decide (opcode (op mn) = Jumpdest)) code).

(** [u32::from_be_bytes] *)
Definition u32_from_be_bytes (bs : list byte) : Z :=
  fold_left (fun acc b => acc * 256 + Z.of_N (Byte.to_N b)) bs 0.

(** [analysis::get_selectors]: the immediates of exactly four bytes. *)
Definition get_selectors (mnemo : list Mnemonic) : list Z :=
  map (fun mn => u32_from_be_bytes (pushes mn))
    (List.filter (fun mn => (length (pushes mn) =? 4)%nat) mnemo).

(** ** z3 bit-vector terms *)

#[local] Set Warnings "-register-all".

(** A z3 [BV] term: a numeral [BVConst w v] of width [w] and value
    [0 <= v < 2^w], or any other term: the application of the operator
    or uninterpreted function [f] to [args], of width [w]. *)
Inductive BV :=
| BVConst (w : N) (v : Z)
| BVApp (f : string) (args : list BV) (w : N).

Definition get_size (t : BV) : N :=
  match t with BVConst w _ => w | BVApp _ _ w => w end.

(** [BV::from_u64(ctx, v, w)] *)
Definition from_u64 (v : Z) (w : N) : BV := BVConst w (v mod 2 ^ Z.of_N w).

(** [Ast::is_const]: an application with no argument (a numeral, or a
    nullary uninterpreted function such as [address()]). *)
Definition is_const (t : BV) : bool :=
  match t with BVConst _ _ => true | BVApp _ [] _ => true | BVApp _ _ _ => false end.

(** [BV::as_u64]: [Some] only for a numeral that fits in 64 bits. *)
Definition as_u64 (t : BV) : option Z :=
  match t with BVConst _ v => if v <? 2 ^ 64 then Some v else None | _ => None end.

(** Structural equality with the 256-bit numeral 0, which is what
    [PartialEq] on z3 terms ([Z3_is_eq_ast]) decides. *)
Definition is_zero_numeral (t : BV) : bool :=
  match t with BVConst w v => (w =? 256)%N && (v =? 0) | _ => false end.

(** [extract(hi, lo)]: z3 rejects [hi >= width] or [hi < lo], which
    aborts the process.  The extract is folded on a numeral, as
    [.simplify()] folds it; on any other term it is kept as a term.  This
    is exact for numerals and for applications of uninterpreted functions,
    which z3 cannot simplify under an extract; z3 also folds extracts over
    some operators (over a [concat], for instance), which the model does
    not. *)
Definition extract (hi lo : N) (t : BV) : outcome BV :=
  if (lo <=? hi)%N && (hi <? get_size t)%N then
    let w := (hi - lo + 1)%N in
    Ok (match t with
        | BVConst _ v => BVConst w (Z.shiftr v (Z.of_N lo) mod 2 ^ Z.of_N w)
        | _ => BVApp "extract" [t] w
        end)
  else Panic.

Definition zero_ext (k : N) (t : BV) : BV :=
  match t with
  | BVConst w v => BVConst (w + k) v
  | _ => BVApp "zero_ext" [t] (get_size t + k)
  end.

(** [a.concat(b)]: [a] is the high part. *)
Definition concat (a b : BV) : BV :=
  match a, b with
  | BVConst wa va, BVConst wb vb => BVConst (wa + wb) (va * 2 ^ Z.of_N wb + vb)
  | _, _ => BVApp "concat" [a; b] (get_size a + get_size b)
  end.

(** A binary bit-vector operation of z3, folded on numerals. *)
Definition bv2 (name : string) (f : Z -> Z -> Z) (a b : BV) : BV :=
  let w := get_size a in
  match a, b with
  | BVConst _ va, BVConst _ vb => BVConst w (f va vb mod 2 ^ Z.of_N w)
  | _, _ => BVApp name [a; b] w
  end.

Definition to_signed (w : N) (v : Z) : Z :=
  if 2 ^ (Z.of_N w - 1) <=? v then v - 2 ^ Z.of_N w else v.

Definition W256 : Z := 2 ^ 256.

Definition bvadd := bv2 "bvadd" Z.add.
Definition bvmul := bv2 "bvmul" Z.mul.
Definition bvsub := bv2 "bvsub" Z.sub.
(** z3: [bvudiv x 0 = 2^w - 1], [bvurem x 0 = x]. *)
Definition bvudiv := bv2 "bvudiv" (fun x y => if y =? 0 then W256 - 1 else x / y).
Definition bvurem := bv2 "bvurem" (fun x y => if y =? 0 then x else x mod y).
Definition bvsdiv := bv2 "bvsdiv" (fun x y =>
  if y =? 0 then (if to_signed 256 x <? 0 then 1 else W256 - 1)
  else Z.quot (to_signed 256 x) (to_signed 256 y)).
Definition bvsmod := bv2 "bvsmod" (fun x y =>
  if y =? 0 then x else Z.modulo (to_signed 256 x) (to_signed 256 y)).
Definition bvand := bv2 "bvand" Z.land.
Definition bvor := bv2 "bvor" Z.lor.
Definition bvxor := bv2 "bvxor" Z.lxor.
Definition bvshl := bv2 "bvshl" (fun x s => Z.shiftl x s).
Definition bvlshr := bv2 "bvlshr" (fun x s => Z.shiftr x s).
Definition bvashr := bv2 "bvashr" (fun x s => Z.shiftr (to_signed 256 x) s).
Definition bvnot (a : BV) : BV :=
  match a with
  | BVConst w v => BVConst w (Z.lxor v (2 ^ Z.of_N w - 1))
  | _ => BVApp "bvnot" [a] (get_size a)
  end.

(** [helpers::bool_to_bv] applied to a comparison: [b ? 1 : 0]. *)
Definition bool_to_bv (name : string) (f : Z -> Z -> bool) (a b : BV) : BV :=
  match a, b with
  | BVConst _ va, BVConst _ vb => BVConst 256 (if f va vb then 1 else 0)
  | _, _ => BVApp "ite" [BVApp name [a; b] 1] 256
  end.

Definition bvult := bool_to_bv "bvult" Z.ltb.
Definition bvugt := bool_to_bv "bvugt" Z.gtb.
Definition bvslt := bool_to_bv "bvslt" (fun x y => to_signed 256 x <? to_signed 256 y).
Definition bvsgt := bool_to_bv "bvsgt" (fun x y => to_signed 256 y <? to_signed 256 x).
Definition bveq := bool_to_bv "eq" Z.eqb.

(** [helpers::is_zero] *)
Definition is_zero (a : BV) : BV := bveq a (from_u64 0 256).

(** [helpers::to_bv]: the bytes read big-endian as a 256-bit numeral. *)
Definition to_bv (val : list byte) : BV :=
  BVConst 256 (fold_left (fun acc b => acc * 256 + Z.of_N (Byte.to_N b)) val 0).

(** ** helpers.rs: [U256] *)

(** [U256([u8; 32])]: its bytes, as numbers in [0, 256). *)
Definition U256 := list Z.

(** [impl Add for U256]: from byte [0] up, [sum = a + b + carry],
    [result[i] = sum as u8], [carry = sum > 0xFF]. *)
Fixpoint add_bytes (a b : list Z) (carry : bool) : list Z * bool :=
  match a, b with
  | x :: a', y :: b' =>
    let sum := x + y + (if carry then 1 else 0) in
    let '(r, c) := add_bytes a' b' (255 <? sum) in
    (sum mod 256 :: r, c)
  | _, _ => ([], carry)
  end.

(** A final carry is added back in by a second pass. *)
Definition U256_add (a b : U256) : U256 :=
  let '(result, carry) := add_bytes a b false in
  if carry then fst (add_bytes result (repeat 0 32) true) else result.

(** [impl Sub for U256]: [sum = (a as u16).overflowing_sub(b as u16).0
    .overflowing_sub(carry as u16).0], [result[i] = sum as u8],
    [carry = sum > 0xFF]. *)
Fixpoint sub_bytes (a b : list Z) (carry : bool) : list Z * bool :=
  match a, b with
  | x :: a', y :: b' =>
    let sum := ((x - y) mod 2 ^ 16 - (if carry then 1 else 0)) mod 2 ^ 16 in
    let '(r, c) := sub_bytes a' b' (255 <? sum) in
    (sum mod 256 :: r, c)
  | _, _ => ([], carry)
  end.

(** A final borrow is taken off by a second pass,
    [result[i].overflowing_sub(carry)], which is [sub_bytes] against 0. *)
Definition U256_sub (a b : U256) : U256 :=
  let '(result, carry) := sub_bytes a b false in
  if carry then fst (sub_bytes result (repeat 0 32) true) else result.

(** The inner [for b in bytes.iter_mut()] of [U256::to_string]:
    [loaned = rem << 8u8 | *b as u16] (on [u16]),
    [*b = (loaned / 10) as u8], [rem = loaned % 10]. *)
Fixpoint div10_pass (bytes : list Z) (rem : Z) : list Z * Z :=
  match bytes with
  | [] => ([], rem)
  | b :: bs =>
    let loaned := Z.lor (Z.shiftl rem 8 mod 2 ^ 16) b in
    let '(bs', rem') := div10_pass bs (loaned mod 10) in
    ((loaned / 10) mod 256 :: bs', rem')
  end.

(** The [while !bytes.is_empty()] loop, for at most [fuel] rounds:
    [rems.push(rem)], then a leading zero byte is dropped. *)
Fixpoint to_string_loop (fuel : nat) (bytes rems : list Z) : option (list Z) :=
  match fuel with
  | O => None
  | S fuel' =>
    match bytes with
    | [] => Some rems
    | _ :: _ =>
      let '(bytes', rem) := div10_pass bytes 0 in
      let bytes'' := match bytes' with Z0 :: t => t | _ => bytes' end in
      to_string_loop fuel' bytes'' (rems ++ [rem])
    end
  end.

(** [skip_while(|n| n == &0)] *)
Fixpoint skip_zeros (l : list Z) : list Z :=
  match l with
  | Z0 :: r => skip_zeros r
  | _ => l
  end.

(** [n.to_string()] of a remainder, which is below 10: one digit. *)
Definition digit_string (n : Z) : string :=
  String (ascii_of_nat (48 + Z.to_nat n)) EmptyString.

(** [U256::to_string]: the remainders, last first, leading zeros skipped,
    or ["0"].  The loop gets [4 * 32 + 1] rounds. *)
Definition U256_to_string (bytes : U256) : option string :=
  match to_string_loop (S (4 * length bytes)) bytes [] with
  | None => None
  | Some rems =>
    let as_str := fold_right String.append EmptyString
                    (map digit_string (skip_zeros (rev rems))) in
    Some (match as_str with EmptyString => "0" | _ => as_str end)
  end.

(** Decimal digits read into an integer. *)
Fixpoint parse_digits (s : string) (acc : Z) : option Z :=
  match s with
  | EmptyString => Some acc
  | String c r =>
    let d := Z.of_nat (nat_of_ascii c) - 48 in
    if (0 <=? d) && (d <=? 9) then parse_digits r (acc * 10 + d) else None
  end.

(** [z3::ast::Int::from_str] on a string of decimal digits
    (the only strings [U256::to_string] produces). *)
Definition Int_from_str (s : string) : option Z :=
  match s with
  | EmptyString => None
  | _ => parse_digits s 0
  end.

(** [BV::from_int(&i, w)]: [int2bv], the integer modulo [2^w]. *)
Definition from_int (v : Z) (w : N) : BV := BVConst w (v mod 2 ^ Z.of_N w).

(** [helpers::to_bv] as written: [assert!(val.len() <= 32)], the bytes
    right-aligned in a zeroed [[u8; 32]], printed by [U256::to_string],
    read back by [Int::from_str(..).unwrap_or(0)] and converted by
    [BV::from_int(.., 256)].  [None] from the bounded printing loop has
    no counterpart in the source and is shown as a panic. *)
Definition to_bv_src (val : list byte) : outcome BV :=
  if (length val <=? 32)%nat then
    let result := repeat 0 (32 - length val) ++ map (fun b => Z.of_N (Byte.to_N b)) val in
    match U256_to_string result with
    | Some as_str =>
      let as_int := match Int_from_str as_str with Some i => i | None => 0 end in
      Ok (from_int as_int 256)
    | None => Panic
    end
  else Panic.

(** Values of byte lists, to state what [U256] computes: [be_val]
    reads byte 0 as the most significant (as [to_string] and [to_bv] do),
    [le_val] as the least significant (as [add] and [sub] carry);
    [bytes_ok] says every byte is below 256. *)
Definition be_val (l : list Z) : Z := fold_left (fun acc b => acc * 256 + b) l 0.
Definition le_val (l : list Z) : Z := fold_right (fun b acc => b + 256 * acc) 0 l.
Definition bytes_ok (l : list Z) : Prop := Forall (fun b => 0 <= b < 256) l.

(** The number whose decimal digits are [rems], the least significant
    first (as [to_string] collects them), and the number whose digits are
    read most significant first onto [acc]. *)
Definition dec_val (rems : list Z) : Z := fold_right (fun d acc => d + 10 * acc) 0 rems.
Definition horner (l : list Z) (acc : Z) : Z := fold_left (fun a d => a * 10 + d) l acc.

(** ** data/stack.rs *)

(** [Stack::data], a [Vec] whose last element is the top of the stack.
    [simplify] on push is the identity on folded terms. *)
Definition Stack := list BV.

Definition Stack_push (data : Stack) (value : BV) : outcome Stack :=
  if (length data =? 16)%nat then Err StackOverflow else Ok (data ++ [value]).

(** [Vec::pop] *)
Definition Stack_pop (data : Stack) : outcome (BV * Stack) :=
  match rev data with
  | [] => Err StackUnderflow
  | x :: r => Ok (x, rev r)
  end.

(** [Stack::dupn]: [self.data.get(n)], index [n] of the [Vec]. *)
Definition Stack_dupn (data : Stack) (n : nat) : outcome Stack :=
  match data !! n with
  | None => Err StackUnderflow
  | Some word => Stack_push data word
  end.

(** [Stack::get]: the element [n] places below the top. *)
Definition Stack_get (data : Stack) (n : nat) : outcome BV :=
  if (length data <? n + 1)%nat then Err StackUnderflow
  else match data !! (length data - (n + 1))%nat with
       | Some w => Ok w
       | None => Err StackUnderflow
       end.

(** [<[T]>::swap(i, j)] on in-range indices. *)
Definition vec_swap (data : Stack) (i j : nat) : Stack :=
  match data !! i, data !! j with
  | Some a, Some b => <[i := b]> (<[j := a]> data)
  | _, _ => data
  end.

(** [Stack::swapn]: [self.data.swap(0, n)]. *)
Definition Stack_swapn (data : Stack) (n : nat) : outcome Stack :=
  match data !! n with
  | Some _ => Ok (vec_swap data 0 n)
  | None => Err StackUnderflow
  end.

(** [EVMStack::push]: [assert_eq!(value.get_size(), 256)]. *)
Definition EVMStack_push (s : Stack) (value : BV) : outcome Stack :=
  if (get_size value =? 256)%N then Stack_push s value else Panic.

(** The [for i in (1..n).rev()] loop of [pop32]/[pop64] on words of [k]
    bits: [ex.as_u64().unwrap() != 0] returns [None] early. *)
Fixpoint narrow_loop (k : N) (is : list N) (val : BV) : outcome bool :=
  match is with
  | [] => Ok true
  | i :: is' =>
    let* ex := extract ((i + 1) * k - 1) (i * k) val in
    let* x := unwrap (as_u64 ex) in
    if negb (x =? 0) then Ok false else narrow_loop k is' val
  end.

Definition EVMStack_pop64 (s : Stack) : outcome (option Z * Stack) :=
  let* '(val, s') := Stack_pop s in
  let* all_zero := narrow_loop 64 [3; 2; 1]%N val in
  if all_zero then
    let* low := extract 63 0 val in
    let* x := unwrap (as_u64 low) in
    Ok (Some x, s')
  else Ok (None, s').

(** [try_into::<u32>().unwrap()] cannot fail on a 32-bit extract. *)
Definition EVMStack_pop32 (s : Stack) : outcome (option Z * Stack) :=
  let* '(val, s') := Stack_pop s in
  let* all_zero := narrow_loop 32 [7; 6; 5; 4; 3; 2; 1]%N val in
  if all_zero then
    let* low := extract 31 0 val in
    let* x := unwrap (as_u64 low) in
    Ok (Some x, s')
  else Ok (None, s').

(** ** data/memory.rs *)

(** [Memory::data] *)
Definition Memory := option BV.

(** [u32] subtraction: an overflow panics (and would give z3 an
    out-of-range extract in a release build). *)
Definition u32_sub (a b : N) : outcome N :=
  if (a <? b)%N then Panic else Ok (a - b)%N.

(** [u32] addition: an overflow panics, as [u32_sub]. *)
Definition u32_add (a b : N) : outcome N :=
  if (2 ^ 32 <=? a + b)%N then Panic else Ok (a + b)%N.

(** [Memory::set] (bit offsets). *)
Definition Memory_set (data : Memory) (offset : N) (words : BV) : outcome Memory :=
  let* d :=
    match data with
    | Some data =>
      let size := get_size data in
      let wsize := get_size words in
      if (size <? offset)%N then
        Ok (concat (zero_ext (offset - size) data) words)
      else
      let* end_ := u32_add offset wsize in
      if (size <? end_)%N then
        let* o1 := u32_sub offset 1 in
        let* low_data := extract o1 0 data in
        Ok (concat low_data words)
      else
        let* o1 := u32_sub offset 1 in
        let* low_data := extract o1 0 data in
        let* up_data := extract (size - offset) wsize data in
        Ok (concat low_data (concat words up_data))
    | None => Ok words
    end in
  Ok (Some d).

(** [Memory::get] on the range [low..high]; it also stores the
    zero-extended data back. *)
Definition Memory_get (data : Memory) (low high : N) : outcome (BV * Memory) :=
  if (low =? high)%N then Ok (from_u64 0 1, data)
  else
    let d := match data with Some d => d | None => from_u64 0 high end in
    let d' := if (get_size d <? high)%N then zero_ext (high - get_size d) d else d in
    let* h1 := u32_sub high 1 in
    let* r := extract h1 low d' in
    Ok (r, Some d').

Definition EVMMemory_mload (m : Memory) (off : N) : outcome (BV * Memory) :=
  let* high := u32_add off 256 in
  let* '(ret, m') := Memory_get m off high in
  if (get_size ret =? 256)%N then Ok (ret, m') else Panic.

Definition EVMMemory_mstore (m : Memory) (offset : N) (value : BV) : outcome Memory :=
  if (get_size value =? 256)%N then Memory_set m offset value else Panic.

Definition EVMMemory_mbig_load (m : Memory) (from to : N) : outcome (BV * Memory) :=
  Memory_get m from to.

Definition EVMMemory_mbig_store (m : Memory) (offset : N) (value : BV) : outcome Memory :=
  Memory_set m offset value.

(** ** data/storage.rs *)

(** [EVMStorage(HashMap<BV, BV>)] as an association list. *)
Definition EVMStorage := list (BV * BV).

(** [EVMStorage::sstore]: after its two width assertions it computes
    [key % 32] into an unused local and leaves the map as it is. *)
Definition EVMStorage_sstore (s : EVMStorage) (key value : BV) : outcome EVMStorage :=
  if (get_size key =? 256)%N && (get_size value =? 256)%N then
    let _off := bvurem key (from_u64 32 256) in
    Ok s
  else Panic.

(** ** prover.rs: [Ret] and [Step] *)

Record Ret := mkRet {
  val : option BV;
  ret : bool;
  (** wether it reverted or not *)
  rev : bool
}.

Definition Ret_default : Ret := {| val := None; ret := false; rev := false |}.

Definition has_ret (r : Ret) : bool := ret r || rev r.

Record Step := mkStep {
  step_op : Mnemonic;
  stack : Stack;
  memory : Memory;
  step_ret : Ret
}.

Definition set_op (st : Step) (m : Mnemonic) : Step :=
  {| step_op := m; stack := stack st; memory := memory st; step_ret := step_ret st |}.
Definition set_stack (st : Step) (s : Stack) : Step :=
  {| step_op := step_op st; stack := s; memory := memory st; step_ret := step_ret st |}.
Definition set_memory (st : Step) (m : Memory) : Step :=
  {| step_op := step_op st; stack := stack st; memory := m; step_ret := step_ret st |}.
Definition set_val (st : Step) (v : option BV) : Step :=
  {| step_op := step_op st; stack := stack st; memory := memory st;
     step_ret := {| val := v; ret := ret (step_ret st); rev := rev (step_ret st) |} |}.
(** [step.ret.rev = true] *)
Definition set_rev (st : Step) : Step :=
  {| step_op := step_op st; stack := stack st; memory := memory st;
     step_ret := {| val := val (step_ret st); ret := ret (step_ret st); rev := true |} |}.

(** [step.stack.pop()?], [step.stack.push(v)?], [step.stack.pop32()?],
    and [step.stack.pop32()?.unwrap()] *)
Definition s_pop (st : Step) : outcome (BV * Step) :=
  let* '(v, s) := Stack_pop (stack st) in Ok (v, set_stack st s).
Definition s_push (st : Step) (v : BV) : outcome Step :=
  let* s := EVMStack_push (stack st) v in Ok (set_stack st s).
Definition s_pop32 (st : Step) : outcome (option Z * Step) :=
  let* '(v, s) := EVMStack_pop32 (stack st) in Ok (v, set_stack st s).
Definition s_pop32u (st : Step) : outcome (N * Step) :=
  let* '(v, st) := s_pop32 st in
  let* x := unwrap v in Ok (Z.to_N x, st).

(** [a.sign_ext(k)] widens [a] by [k] bits. *)
Definition sign_ext (k : N) (t : BV) : BV :=
  match t with
  | BVConst w v => BVConst (w + k) (to_signed w v mod 2 ^ Z.of_N (w + k))
  | _ => BVApp "sign_ext" [t] (get_size t + k)
  end.

(** Two pops [a] (the top) and [b], then a push of [f a b]. *)
Definition binop (f : BV -> BV -> BV) (st : Step) : outcome Step :=
  let* '(a, st) := s_pop st in
  let* '(b, st) := s_pop st in
  s_push st (f a b).

Definition ternop (f : BV -> BV -> BV -> BV) (st : Step) : outcome Step :=
  let* '(a, st) := s_pop st in
  let* '(b, st) := s_pop st in
  let* '(n, st) := s_pop st in
  s_push st (f a b n).

(** Uninterpreted functions of [Symbolic], applied. *)
Definition sym_app (f : string) (args : list BV) : BV := BVApp f args 256.

(** The uninterpreted functions of 256 bits the prover declares: the
    fields of [Symbolic] and the [sha3] of [Prover::sha3]. *)
Definition uninterpreted_funs : list string :=
  ["calldata"; "value"; "caller"; "origin"; "address"; "balance_of";
   "calldatasize"; "codesize"; "gasprice"; "sha3"].

(** [Prover::ret] *)
Definition Prover_ret (step : Step) : outcome Step :=
  let* len := Stack_get (stack step) 1 in
  if is_zero_numeral len then Ok (set_val step None)
  else
    let* l := unwrap (as_u64 len) in
    (* [as u32] *)
    let len := Z.to_N (l mod 2 ^ 32) in
    let* '(off, step) := s_pop32u step in
    let* '(_, step) := s_pop step in
    let* hi := u32_add off len in
    let* '(r, m) := EVMMemory_mbig_load (memory step) off hi in
    Ok (set_val (set_memory step m) (Some r)).

(** [Prover::code_copy]: a zero [size] is a zero-width z3 sort. *)
Definition Prover_code_copy (addr : BV) (dest_off off size : N) (step : Step) : outcome Step :=
  if (size =? 0)%N then Panic
  else
    let code := BVApp "codecopy" [addr; from_u64 (Z.of_N off) 256; from_u64 (Z.of_N size) 256] size in
    let* m := EVMMemory_mbig_store (memory step) dest_off code in
    Ok (set_memory step m).

(** [Prover::step].  [codesize] is declared with no argument but applied
    to one in [Codesize] and [Extcodesize]: z3 rejects the application. *)
Definition Prover_step (last_step : Step) (instruction : Mnemonic) : outcome Step :=
  let step := set_op last_step instruction in
  match opcode (op instruction) with
  | Stop => Ok step
  | Add => binop bvadd step
  | Mul => binop bvmul step
  | Sub => binop bvsub step
  | Div => binop bvudiv step
  | Sdiv => binop bvsdiv step
  | Mod => binop bvurem step
  | Smod => binop bvsmod step
  | Addmod => ternop (fun a b n => bvurem (bvadd a b) n) step
  | Mulmod => ternop (fun a b n => bvurem (bvmul a b) n) step
  | Signextend =>
      let* '(a, step) := s_pop step in
      let* '(b, step) := s_pop32u step in
      s_push step (sign_ext b a)
  | Lt => binop bvult step
  | Gt => binop bvugt step
  | Slt => binop bvslt step
  | Sgt => binop bvsgt step
  | Eq => binop bveq step
  | Iszero => let* '(a, step) := s_pop step in s_push step (is_zero a)
  | And => binop bvand step
  | Or => binop bvor step
  | Xor => binop bvxor step
  | Not => let* '(a, step) := s_pop step in s_push step (bvnot a)
  | Byte =>
      let* '(i, step) := s_pop step in
      let* '(x, step) := s_pop32 step in
      let* res :=
        match x with
        | Some x =>
            if x <? 2 ^ 32 - 1 - 32 then extract (Z.to_N x + 255) (Z.to_N x) i
            else Ok (from_u64 0 256)
        | None => Ok (from_u64 0 256)
        end in
      s_push step res
  | Shl =>
      let* '(shift, step) := s_pop step in
      let* '(value, step) := s_pop step in
      s_push step (bvshl value shift)
  | Shr =>
      let* '(shift, step) := s_pop step in
      let* '(value, step) := s_pop step in
      s_push step (bvlshr value shift)
  | Sar => binop bvashr step
  | Sha3 =>
      let* '(off, step) := s_pop32u step in
      let* '(size, step) := s_pop32u step in
      let* hi := u32_add off size in
      let* '(part, m) := EVMMemory_mbig_load (memory step) off hi in
      let step := set_memory step m in
      s_push step (sym_app "sha3" [part])
  | Address => s_push step (sym_app "address" [])
  | Balance =>
      let* '(address, step) := s_pop step in
      s_push step (sym_app "balance_of" [address])
  | Origin => s_push step (sym_app "origin" [])
  | Caller => s_push step (sym_app "caller" [from_u64 0 256])
  | Callvalue => s_push step (from_u64 0 256)
  | Calldataload =>
      let* '(off, step) := s_pop step in
      s_push step (sym_app "calldata" [off])
  | Calldatasize => s_push step (sym_app "calldatasize" [])
  | Codesize => Panic
  | Codecopy =>
      let addr := sym_app "address" [] in
      let* '(dest_off, step) := s_pop32u step in
      let* '(off, step) := s_pop32u step in
      let* '(size, step) := s_pop32u step in
      Prover_code_copy addr dest_off off size step
  | Gasprice => s_push step (sym_app "gasprice" [])
  | Extcodesize => let* '(_, step) := s_pop step in Panic
  | Extcodecopy =>
      let* '(addr, step) := s_pop step in
      let* '(dest_off, step) := s_pop32u step in
      let* '(off, step) := s_pop32u step in
      let* '(size, step) := s_pop32u step in
      Prover_code_copy addr dest_off off size step
  | Returndatasize =>
      let size := match val (step_ret step) with Some v => get_size v | None => 0%N end in
      s_push step (from_u64 (Z.of_N size) 256)
  | Push _ => s_push step (to_bv (pushes instruction))
  | Dup _ =>
      let* dup_size := unwrap (dup_size (op instruction)) in
      let* s := Stack_dupn (stack step) (dup_size - 1) in
      Ok (set_stack step s)
  | Swap _ =>
      let* swap := unwrap (swap_size (op instruction)) in
      let* s := Stack_swapn (stack step) (swap - 1) in
      Ok (set_stack step s)
  | Pop => let* '(_, step) := s_pop step in Ok step
  | Mload =>
      let* '(off, step) := s_pop32u step in
      let* '(mem, m) := EVMMemory_mload (memory step) off in
      s_push (set_memory step m) mem
  | Mstore =>
      let* '(off, step) := s_pop32u step in
      let* '(v, step) := s_pop step in
      let* m := EVMMemory_mstore (memory step) off v in
      Ok (set_memory step m)
  | Return => Prover_ret step
  | Revert => let* step := Prover_ret step in Ok (set_rev step)
  | Invalid => Ok (set_rev step)
  | Jumpdest => Ok step
  | Jump => let* '(_, step) := s_pop step in Ok step
  | Jumpi =>
      let* '(_, step) := s_pop step in
      let* '(_, step) := s_pop step in
      Ok step
  (** [op => todo!("{:?}", op)] *)
  | _ => Panic
  end.

(** How each arm of [Prover::step] changes the stack: [PopsPushes k j]
    pops [k] words and pushes [j]; [SwapEffect] reorders it; [RetEffect]
    ([Prover::ret]) pops two words or none; [NoStep] arms never succeed. *)
Inductive StackEffect :=
| PopsPushes (pops pushes : nat)
| SwapEffect
| RetEffect
| NoStep.

Definition stack_effect (o : OpCodes) : StackEffect :=
  match o with
  | Stop | Invalid | Jumpdest => PopsPushes 0 0
  | Add | Mul | Sub | Div | Sdiv | Mod | Smod | Signextend | Lt | Gt | Slt | Sgt
  | Eq | And | Or | Xor | Byte | Shl | Shr | Sar | Sha3 => PopsPushes 2 1
  | Addmod | Mulmod => PopsPushes 3 1
  | Iszero | Not | Balance | Calldataload | Mload => PopsPushes 1 1
  | Address | Origin | Caller | Callvalue | Calldatasize | Gasprice
  | Returndatasize | Push _ | Dup _ => PopsPushes 0 1
  | Pop | Jump => PopsPushes 1 0
  | Mstore | Jumpi => PopsPushes 2 0
  | Codecopy => PopsPushes 3 0
  | Extcodecopy => PopsPushes 4 0
  | Swap _ => SwapEffect
  | Return | Revert => RetEffect
  | _ => NoStep
  end.

(** ** prover.rs: the path explorer *)

(** The assertion [jd == dest.to_int(false)] of a symbolic jump. *)
Inductive Assertion := DestIs (jd : Z) (dest : BV).

(** A z3 [Solver]: its assertion frames, the innermost first. *)
Definition Solver := list (list Assertion).
Definition Solver_new : Solver := [[]].
Definition Solver_push (s : Solver) : Solver := [] :: s.
Definition Solver_assert (a : Assertion) (s : Solver) : Solver :=
  match s with f :: r => (a :: f) :: r | [] => [[a]] end.
(** [sol.pop(1)] *)
Definition Solver_pop (s : Solver) : Solver :=
  match s with _ :: r => r | [] => [] end.
Definition assertions (s : Solver) : list Assertion := List.concat s.

(** [Tree]: branch id to (solver, steps). *)
Abbreviation Tree := (gmap nat (Solver * list Step)).

(** The state shared by all the recursive calls of [Prover::path]: the
    tree behind the [Rc<RefCell<_>>], the [vdest] vector behind the
    [&mut], and [entered], an instrumentation that is not in the source:
    the jump destinations at which a branch was started, in order. *)
Record PState := mkPState {
  tree : Tree;
  vdest : list Z;
  entered : list Z
}.

Definition PState_empty : PState := {| tree := ∅; vdest := []; entered := [] |}.

(** [vdest.push(d)] *)
Definition visit (d : Z) (ps : PState) : PState :=
  {| tree := tree ps; vdest := vdest ps ++ [d]; entered := entered ps |}.
(** a branch is started at [d] *)
Definition enter (d : Z) (ps : PState) : PState :=
  {| tree := tree ps; vdest := vdest ps; entered := entered ps ++ [d] |}.

(** [steps.push(step); *_sol = sol] on the entry [last_pid], or a new entry. *)
Definition record_step (last_pid : nat) (sol : Solver) (stp : Step) (t : Tree) : Tree :=
  match t !! last_pid with
  | Some (_, steps) => <[last_pid := (sol, steps ++ [stp])]> t
  | None => <[last_pid := (sol, [stp])]> t
  end.

Definition set_tree (ps : PState) (t : Tree) : PState :=
  {| tree := t; vdest := vdest ps; entered := entered ps |}.

(** [code.iter().skip_while(|ins| ins.pc < pc)] *)
Fixpoint skip_while_pc (pc0 : nat) (l : list Mnemonic) : list Mnemonic :=
  match l with
  | [] => []
  | ins :: r => if (pc ins <? pc0)%nat then skip_while_pc pc0 r else l
  end.

(** The result of the path explorer: an [outcome], or the exhaustion of
    the recursion budget of the model (never reached with the budget
    [walk] gives it, see claim C1). *)
Inductive poutcome (A : Type) :=
| POk (a : A)
| PErr (r : RevertReason)
| PPanic
| OutOfFuel.
Arguments POk {A} a.
Arguments PErr {A} r.
Arguments PPanic {A}.
Arguments OutOfFuel {A}.

Definition lift {A} (o : outcome A) : poutcome A :=
  match o with Ok a => POk a | Err r => PErr r | Panic => PPanic end.

(** Sequencing on the shared state: a failure is returned with the
    state reached so far. *)
Definition sbind {A B} (m : poutcome A * PState) (f : A -> PState -> poutcome B * PState)
    : poutcome B * PState :=
  match m with
  | (POk a, ps) => f a ps
  | (PErr r, ps) => (PErr r, ps)
  | (PPanic, ps) => (PPanic, ps)
  | (OutOfFuel, ps) => (OutOfFuel, ps)
  end.

Section Explorer.

(** [sol.check() == SatResult::Sat]: the SMT solver is a parameter. *)
Variable check : list Assertion -> bool.
Variable code : list Mnemonic.
Variable jdest : list Z.

(** The recursive call [Self::path(ctx, jdest, sym, code, pid, tree, vdest, step, pc)]. *)
Definition Rec := nat -> PState -> Step -> nat -> poutcome nat * PState.

(** [if let POk((t, p)) = Self::path(.., pid + 1, .., step.clone(), jd) { pid = p; }]:
    an error of the branch is dropped. *)
Definition branch (path : Rec) (pid : nat) (stp : Step) (jd : Z) (ps : PState)
    : poutcome nat * PState :=
  match path (pid + 1)%nat ps stp (Z.to_nat jd) with
  | (POk p, ps') => (POk p, ps')
  | (PErr _, ps') => (POk pid, ps')
  | (PPanic, ps') => (PPanic, ps')
  | (OutOfFuel, ps') => (OutOfFuel, ps')
  end.

(** [for jd in jdest { sol.push(); sol.assert(..); if sat && !vdest.contains(jd) {..} sol.pop(1); }] *)
Fixpoint each_jd (path : Rec) (dest : BV) (stp : Step) (jds : list Z)
    (pid : nat) (sol : Solver) (ps : PState) : poutcome (nat * Solver) * PState :=
  match jds with
  | [] => (POk (pid, sol), ps)
  | jd :: jds' =>
    let sol := Solver_assert (DestIs jd dest) (Solver_push sol) in
    if check (assertions sol) && negb (bool_decide (jd ∈ vdest ps)) then
      sbind (branch path pid stp jd (enter jd (visit jd ps)))
        (fun pid ps => each_jd path dest stp jds' pid (Solver_pop sol) ps)
    else each_jd path dest stp jds' pid (Solver_pop sol) ps
  end.

(** The [if opcode == &Jump || opcode == &Jumpi] block. *)
Definition jump (path : Rec) (opc : OpCodes) (pid : nat) (sol : Solver) (stp : Step)
    (ps : PState) : poutcome (nat * Solver * Step) * PState :=
  sbind (lift (Stack_get (stack stp) 0), ps) (fun dest ps =>
  sbind (lift (if bool_decide (opc = Jumpi) then Stack_get (stack stp) 1
               else Ok (from_u64 1 256)), ps) (fun _cond ps =>
  if negb (is_const dest) then
    sbind (each_jd path dest stp jdest pid sol ps)
      (fun '(pid, sol) ps => (POk (pid, sol, stp), ps))
  else
    match as_u64 dest with
    | Some d =>
      if negb (bool_decide (d ∈ vdest ps)) then
        let ps := visit d ps in
        if bool_decide (d ∈ jdest) then
          (* [sol.push()] .. [sol.pop(1)] around the branch *)
          sbind (branch path pid stp d (enter d ps))
            (fun pid ps => (POk (pid, Solver_pop (Solver_push sol), stp), ps))
        else (POk (pid, sol, stp), ps)
      else (POk (pid, sol, stp), ps)
    | None =>
      sbind (lift (Prover_ret stp), ps) (fun stp ps => (POk (pid, sol, set_rev stp), ps))
    end)).

(** The [for instruction in ..] loop of [Prover::path], with the
    branch id [last_pid] its steps are recorded under. *)
Fixpoint walk_loop (path : Rec) (last_pid : nat) (ins : list Mnemonic)
    (pid : nat) (sol : Solver) (stp : Step) (ps : PState) : poutcome nat * PState :=
  match ins with
  | [] => (POk (pid + 1)%nat, ps)
  | instruction :: rest =>
    let opc := opcode (op instruction) in
    sbind (if bool_decide (opc = Jump) || bool_decide (opc = Jumpi)
           then jump path opc pid sol stp ps
           else (POk (pid, sol, stp), ps))
      (fun '(pid, sol, stp) ps =>
         sbind (lift (Prover_step stp instruction), ps) (fun stp ps =>
           let ps := set_tree ps (record_step last_pid sol stp (tree ps)) in
           if has_ret (step_ret stp) then (POk (pid + 1)%nat, ps)
           else walk_loop path last_pid rest pid sol stp ps))
  end.

(** [Prover::path]; [fuel] bounds the depth of the recursion. *)
Fixpoint Prover_path (fuel : nat) (pid : nat) (ps : PState) (stp : Step) (pc : nat)
    : poutcome nat * PState :=
  match fuel with
  | O => (OutOfFuel, ps)
  | S fuel' =>
    let sol := match tree ps !! pid with Some (s, _) => s | None => Solver_new end in
    walk_loop (Prover_path fuel') pid (skip_while_pc pc code) pid sol stp ps
  end.

End Explorer.

(** [Prover::walk]: [self.code.first().unwrap()] and the main branch 0,
    with one level of recursion more than there are jump destinations. *)
Definition Prover_walk (check : list Assertion -> bool) (code : list Mnemonic)
    : poutcome nat * PState :=
  let jdest := get_jumpdest code in
  match code with
  | [] => (PPanic, PState_empty)
  | first :: _ =>
    let last_step := {| step_op := first; stack := []; memory := None;
                        step_ret := Ret_default |} in
    Prover_path check code jdest (S (length jdest)) 0 PState_empty last_step 0
  end.

(** [Prover::run]: [let (tree, _p) = self.walk()?; POk(tree)]. *)
Definition Prover_run (check : list Assertion -> bool) (code : list Mnemonic) : poutcome Tree :=
  match Prover_walk check code with
  | (POk _, ps) => POk (tree ps)
  | (PErr r, _) => PErr r
  | (PPanic, _) => PPanic
  | (OutOfFuel, _) => OutOfFuel
  end.

Definition run_bytes (check : list Assertion -> bool) (bytecode : list byte) : poutcome Tree :=
  Prover_run check (to_mnemonics bytecode).

(** ** Evaluation helpers *)

(** A solver that answers [Sat] to every query (used only at inputs
    with no symbolic jump, where the solver is never queried). *)
Definition any_sat : list Assertion -> bool := fun _ => true.

(** The steps recorded under a branch id, when [run] returns a tree. *)
Definition branch_steps (o : poutcome Tree) (id : nat) : option (list Step) :=
  match o with
  | POk t => match t !! id with Some (_, steps) => Some steps | None => None end
  | _ => None
  end.

(** The branch ids of the tree, when [run] returns one. *)
Definition branch_ids (o : poutcome Tree) : list nat :=
  match o with POk t => map fst (map_to_list t) | _ => [] end.

Definition some_reverted (steps : list Step) : bool :=
  existsb (fun s => rev (step_ret s)) steps.

Definition stacks (steps : list Step) : list Stack := map stack steps.

(** The bytes of a decoded record: the opcode byte, then the immediate. *)
Definition record_bytes (m : Mnemonic) : list byte := op m :: pushes m.

(** The pc advance of a record: one byte of opcode and its immediate. *)
Definition pc_advance (m : Mnemonic) : nat := S (length (pushes m)).






(** ** Measures and invariants of the explorer *)

(** The destinations of [jdest] not yet in [vdest]: the measure that
    bounds the depth of the recursion of [Prover::path]. *)
Definition unvisited (jdest vdest : list Z) : nat :=
  length (List.filter (fun j => negb (bool_decide (j ∈ vdest))) jdest).

(** Invariant of the shared state: [vdest] and [entered] have no
    duplicates, and every destination entered is in [vdest] and in
    [jdest]. *)
Definition explorer_inv (jdest : list Z) (ps : PState) : Prop :=
  NoDup (vdest ps) /\ NoDup (entered ps) /\
  (forall x, x ∈ entered ps -> x ∈ vdest ps /\ x ∈ jdest).

(** The shared state only grows: visited destinations and tree keys stay. *)
Definition grows (ps ps' : PState) : Prop :=
  (forall x, x ∈ vdest ps -> x ∈ vdest ps') /\
  (forall k, is_Some (tree ps !! k) -> is_Some (tree ps' !! k)).

Definition has_key (k : nat) (ps : PState) : nat :=
  match tree ps !! k with Some _ => 1%nat | None => 0%nat end.

(** From [ps] to [ps'], every new tree entry is paid by a new entered
    branch, except the first entry under the key [k]. *)
Definition paid (k : nat) (ps ps' : PState) : Prop :=
  (size (tree ps') + length (entered ps) + has_key k ps
   <= size (tree ps) + length (entered ps') + has_key k ps')%nat.

(** The entries of the tree under the keys below [p] are kept. *)
Definition keeps_below (p : nat) (ps ps' : PState) : Prop :=
  forall k, (k < p)%nat -> tree ps' !! k = tree ps !! k.


(** What a call of the explorer with recursion budget [f] guarantees. *)
Definition path_ok (jdest : list Z) (path : Rec) (f : nat) : Prop :=
  forall pid ps stp pc0,
    explorer_inv jdest ps -> (unvisited jdest (vdest ps) < f)%nat ->
    forall r ps', path pid ps stp pc0 = (r, ps') ->
    r <> OutOfFuel /\ explorer_inv jdest ps' /\ grows ps ps' /\
    (size (tree ps') + length (entered ps) <= size (tree ps) + length (entered ps') + 1)%nat.

(** One stage of the explorer from [ps] to [ps'], recording under the key [k]. *)
Definition step_ok (jdest : list Z) (k : nat) (ps ps' : PState) : Prop :=
  explorer_inv jdest ps' /\ grows ps ps' /\ paid k ps ps'.

(** ** Decoder lemmas *)

Lemma get_slice_firstn {T} (v : list T) (s n : nat) :
  get_slice v s (s + n) = firstn n (skipn s v).
Proof.
  unfold get_slice.
  destruct (Nat.leb_spec (s + n) (length v)).
  - f_equal. lia.
  - destruct (Nat.ltb_spec s (length v)).
    + rewrite firstn_all2; [done|]. rewrite length_skipn. lia.
    + rewrite skipn_all2 by lia. by rewrite firstn_nil.
Qed.

Lemma skipn_nth_error {T} (v : list T) (k : nat) (b : T) :
  nth_error v k = Some b -> skipn k v = b :: skipn (S k) v.
Proof.
  revert k. induction v as [|x v IH]; intros [|k] H; simpl in *; try discriminate.
  - by injection H as ->.
  - by apply IH.
Qed.

Lemma to_mnemonics_loop_concat (B : list byte) (fuel pc0 : nat) :
  (length B - pc0 <= fuel)%nat ->
  List.concat (map record_bytes (to_mnemonics_loop B fuel pc0)) = skipn pc0 B.
Proof.
  revert pc0. induction fuel as [|fuel IH]; intros pc0 Hf; simpl.
  - rewrite skipn_all2 by lia. done.
  - destruct (nth_error B pc0) as [b|] eqn:Hb.
    + rewrite (skipn_nth_error B pc0 b Hb).
      destruct (push_size b) as [n|] eqn:Hp; simpl.
      * rewrite get_slice_firstn, IH.
        -- f_equal. replace (pc0 + n + 1)%nat with (n + S pc0)%nat by lia.
           replace (pc0 + 1)%nat with (S pc0) by lia.
           rewrite <- (skipn_skipn n (S pc0) B). apply firstn_skipn.
        -- assert (pc0 < length B)%nat by (apply nth_error_Some; congruence). lia.
      * rewrite IH; [by rewrite Nat.add_1_r|]. assert (pc0 < length B)%nat
          by (apply nth_error_Some; congruence). lia.
    + apply nth_error_None in Hb. rewrite skipn_all2 by lia. done.
Qed.

Lemma length_concat_record_bytes (l : list Mnemonic) :
  length (List.concat (map record_bytes l)) = list_sum (map pc_advance l).
Proof. induction l as [|m l IH]; simpl; [done|]. rewrite length_app, IH. done. Qed.

(** ** Explorer lemmas *)

Lemma unvisited_mono (jdest v v' : list Z) :
  (forall x, x ∈ v -> x ∈ v') -> (unvisited jdest v' <= unvisited jdest v)%nat.
Proof.
  intros Hsub. unfold unvisited. induction jdest as [|j js IH]; simpl; [lia|].
  destruct (bool_decide (j ∈ v')) eqn:E1, (bool_decide (j ∈ v)) eqn:E2; simpl; try lia.
  apply bool_decide_eq_false in E1. apply bool_decide_eq_true in E2.
  exfalso. by apply E1, Hsub.
Qed.

Lemma unvisited_le (jdest v : list Z) : (unvisited jdest v <= length jdest)%nat.
Proof.
  unfold unvisited. induction jdest as [|j js IH]; simpl; [lia|].
  destruct (negb _); simpl; lia.
Qed.

Lemma unvisited_visit (jdest v : list Z) (jd : Z) :
  jd ∈ jdest -> jd ∉ v -> (unvisited jdest (v ++ [jd]) < unvisited jdest v)%nat.
Proof.
  intros Hin Hnot. unfold unvisited. induction jdest as [|j js IH]; simpl.
  - by apply not_elem_of_nil in Hin.
  - assert (Hle := unvisited_mono js v (v ++ [jd])). unfold unvisited in Hle.
    assert (Hle' : (length (List.filter (fun j0 => negb (bool_decide (j0 ∈ v ++ [jd]))) js)
                   <= length (List.filter (fun j0 => negb (bool_decide (j0 ∈ v))) js))%nat)
      by (apply Hle; intros x Hx; set_solver).
    apply elem_of_cons in Hin as [Heq|Hin].
    + subst j. rewrite (bool_decide_eq_true_2 (jd ∈ v ++ [jd])) by set_solver.
      rewrite (bool_decide_eq_false_2 (jd ∈ v)) by done. simpl. lia.
    + specialize (IH Hin).
      destruct (bool_decide (j ∈ v ++ [jd])) eqn:E1, (bool_decide (j ∈ v)) eqn:E2;
        simpl; try lia.
      apply bool_decide_eq_false in E1. apply bool_decide_eq_true in E2. set_solver.
Qed.

Lemma grows_refl ps : grows ps ps.
Proof. split; auto. Qed.

Lemma grows_trans ps1 ps2 ps3 : grows ps1 ps2 -> grows ps2 ps3 -> grows ps1 ps3.
Proof. intros [A B] [C D]. split; auto. Qed.

Lemma has_key_grows k ps ps' : grows ps ps' -> (has_key k ps <= has_key k ps')%nat.
Proof.
  intros [_ Hk]. unfold has_key. destruct (tree ps !! k) eqn:E; [|lia].
  destruct (Hk k) as [x ->]; [by eexists|]. lia.
Qed.

Lemma record_step_facts jdest k sol stp ps :
  let ps' := set_tree ps (record_step k sol stp (tree ps)) in
  (explorer_inv jdest ps -> explorer_inv jdest ps') /\ grows ps ps' /\ paid k ps ps'.
Proof.
  simpl. split; [done|].
  assert (Hk : is_Some (record_step k sol stp (tree ps) !! k)).
  { unfold record_step. destruct (tree ps !! k) as [[s steps]|];
      by rewrite lookup_insert_eq. }
  assert (Hsub : forall k', is_Some (tree ps !! k') ->
                 is_Some (record_step k sol stp (tree ps) !! k')).
  { intros k' H. unfold record_step.
    destruct (tree ps !! k) as [[s steps]|];
      (destruct (decide (k = k')) as [<-|];
       [by rewrite lookup_insert_eq | by rewrite lookup_insert_ne]). }
  split; [split; [done|exact Hsub]|].
  unfold paid, has_key; simpl. destruct Hk as [x Hx]. rewrite Hx.
  unfold record_step in *. destruct (tree ps !! k) as [[s steps]|] eqn:E.
  - rewrite map_size_insert_Some by (by eexists). lia.
  - rewrite map_size_insert_None by done. lia.
Qed.

Lemma paid_refl k ps : paid k ps ps.
Proof. unfold paid. lia. Qed.

Lemma paid_trans k a b c : paid k a b -> paid k b c -> paid k a c.
Proof. unfold paid. lia. Qed.

Lemma step_ok_refl jdest k ps : explorer_inv jdest ps -> step_ok jdest k ps ps.
Proof. intros Hi. split_and!; [done|apply grows_refl|apply paid_refl]. Qed.

Lemma step_ok_trans jdest k a b c :
  step_ok jdest k a b -> step_ok jdest k b c -> step_ok jdest k a c.
Proof.
  intros (_ & Hg1 & Hp1) (Hi2 & Hg2 & Hp2).
  split_and!; [done|by eapply grows_trans|by eapply paid_trans].
Qed.

Lemma visit_inv jdest ps d :
  explorer_inv jdest ps -> d ∉ vdest ps -> explorer_inv jdest (visit d ps).
Proof.
  intros (Hv & He & Hs) Hn. split_and!; simpl.
  - apply NoDup_app. split_and!; [done| |apply NoDup_singleton]. set_solver.
  - done.
  - intros x Hx. destruct (Hs x Hx). split; [set_solver|done].
Qed.

Lemma enter_visit_inv jdest ps d :
  explorer_inv jdest ps -> d ∉ vdest ps -> d ∈ jdest ->
  explorer_inv jdest (enter d (visit d ps)).
Proof.
  intros Hi Hn Hj. destruct (visit_inv jdest ps d Hi Hn) as (Hv & He & Hs).
  destruct Hi as (_ & _ & Hs0). simpl in *. split_and!; [done| |].
  - apply NoDup_app. split_and!; [done| |apply NoDup_singleton].
    intros x Hx. apply Hs0 in Hx as [Hx _]. set_solver.
  - intros x Hx. apply elem_of_app in Hx as [Hx|Hx].
    + by apply Hs.
    + assert (x = d) as -> by set_solver. split; [set_solver|done].
Qed.

Lemma visit_step_ok jdest k ps d :
  explorer_inv jdest ps -> d ∉ vdest ps -> step_ok jdest k ps (visit d ps).
Proof.
  intros Hi Hn. split_and!; [by apply visit_inv| |].
  - split; simpl; [set_solver|done].
  - unfold paid, has_key. simpl. lia.
Qed.

Lemma branch_ok jdest (rec : Rec) f' k pid stp jd ps r ps' :
  path_ok jdest rec f' -> explorer_inv jdest ps -> jd ∈ jdest -> jd ∉ vdest ps ->
  (unvisited jdest (vdest ps) <= f')%nat ->
  branch rec pid stp jd (enter jd (visit jd ps)) = (r, ps') ->
  r <> OutOfFuel /\ step_ok jdest k ps ps'.
Proof.
  intros Hp Hi Hj Hn Hu Hb. unfold branch in Hb.
  destruct (rec (pid + 1)%nat (enter jd (visit jd ps)) stp (Z.to_nat jd)) as [r0 ps0] eqn:E.
  destruct (Hp (pid + 1)%nat _ stp (Z.to_nat jd) (enter_visit_inv jdest ps jd Hi Hn Hj))
    with (r := r0) (ps' := ps0) as (Hr & Hi' & Hg & Hs); [|exact E|].
  { simpl. pose proof (unvisited_visit jdest (vdest ps) jd Hj Hn). lia. }
  assert (Hg0 : grows ps ps0).
  { eapply grows_trans; [|exact Hg]. split; simpl; [set_solver|done]. }
  assert (Hst : step_ok jdest k ps ps0).
  { split_and!; [done|done|]. unfold paid. pose proof (has_key_grows k ps ps0 Hg0).
    simpl in Hs. rewrite length_app in Hs. simpl in Hs. lia. }
  destruct r0; injection Hb as <- <-; try congruence; (split; [discriminate|done]).
Qed.

Lemma each_jd_ok check jdest (rec : Rec) f' k dest stp jds :
  path_ok jdest rec f' -> (forall x, x ∈ jds -> x ∈ jdest) ->
  forall pid sol ps r ps',
  explorer_inv jdest ps -> (unvisited jdest (vdest ps) <= f')%nat ->
  each_jd check rec dest stp jds pid sol ps = (r, ps') ->
  r <> OutOfFuel /\ step_ok jdest k ps ps'.
Proof.
  intros Hp. induction jds as [|jd jds IH]; intros Hsub pid sol ps r ps' Hi Hu H; simpl in H.
  - injection H as <- <-. split; [discriminate|by apply step_ok_refl].
  - assert (Hsub' : forall x, x ∈ jds -> x ∈ jdest) by (intros x Hx; apply Hsub; set_solver).
    destruct (check _ && _) eqn:Ec.
    + apply andb_true_iff in Ec as [_ Hn]. apply negb_true_iff, bool_decide_eq_false in Hn.
      destruct (branch rec pid stp jd (enter jd (visit jd ps))) as [r0 ps1] eqn:Hb.
      destruct (branch_ok jdest rec f' k pid stp jd ps r0 ps1 Hp Hi
                  (Hsub jd ltac:(set_solver)) Hn Hu Hb) as [Hr0 Hs1].
      destruct r0 as [p|e| |]; simpl in H; [|injection H as <- <-; by split..|done].
      pose proof Hs1 as (Hi1 & Hg1 & _).
      destruct (IH Hsub' p (Solver_pop (Solver_assert (DestIs jd dest) (Solver_push sol)))
                  ps1 r ps' Hi1) as [Hr Hs2]; [|exact H|].
      { pose proof (unvisited_mono jdest _ _ (proj1 Hg1)). lia. }
      split; [done|by eapply step_ok_trans].
    + by eapply IH.
Qed.

Lemma jump_ok check jdest (rec : Rec) f' k opc pid sol stp ps r ps' :
  path_ok jdest rec f' -> explorer_inv jdest ps -> (unvisited jdest (vdest ps) <= f')%nat ->
  jump check jdest rec opc pid sol stp ps = (r, ps') ->
  r <> OutOfFuel /\ step_ok jdest k ps ps'.
Proof.
  intros Hp Hi Hu. unfold jump.
  destruct (Stack_get (stack stp) 0) as [dest|e|]; cbn [lift sbind];
    try (intros [= <- <-]; split; [discriminate|by apply step_ok_refl]).
  destruct (if bool_decide (opc = Jumpi) then _ else _) as [c|e|]; cbn [lift sbind];
    try (intros [= <- <-]; split; [discriminate|by apply step_ok_refl]).
  destruct (negb (is_const dest)).
  - destruct (each_jd check rec dest stp jdest pid sol ps) as [r0 ps1] eqn:E.
    destruct (each_jd_ok check jdest rec f' k dest stp jdest Hp (fun x Hx => Hx)
                pid sol ps r0 ps1 Hi Hu E) as [Hr0 Hs1].
    destruct r0 as [[pid' sol']|e| |]; cbn [sbind]; intros [= <- <-];
      try congruence; (split; [discriminate|done]).
  - destruct (as_u64 dest) as [d|].
    + destruct (bool_decide (d ∈ vdest ps)) eqn:Ev; cbn [negb].
      * intros [= <- <-]. split; [discriminate|by apply step_ok_refl].
      * apply bool_decide_eq_false in Ev.
        destruct (bool_decide (d ∈ jdest)) eqn:Ej.
        -- apply bool_decide_eq_true in Ej.
           destruct (branch rec pid stp d (enter d (visit d ps))) as [r0 ps1] eqn:Hb.
           destruct (branch_ok jdest rec f' k pid stp d ps r0 ps1 Hp Hi Ej Ev Hu Hb)
             as [Hr0 Hs1].
           destruct r0 as [p|e| |]; cbn [sbind]; intros [= <- <-];
             try congruence; (split; [discriminate|done]).
        -- intros [= <- <-]. split; [discriminate|by apply visit_step_ok].
    + destruct (Prover_ret stp); cbn [lift sbind]; intros [= <- <-];
        (split; [discriminate|by apply step_ok_refl]).
Qed.

Lemma walk_loop_ok check jdest (rec : Rec) f' k ins :
  path_ok jdest rec f' ->
  forall pid sol stp ps r ps',
  explorer_inv jdest ps -> (unvisited jdest (vdest ps) <= f')%nat ->
  walk_loop check jdest rec k ins pid sol stp ps = (r, ps') ->
  r <> OutOfFuel /\ step_ok jdest k ps ps'.
Proof.
  intros Hp. induction ins as [|a ins IH]; intros pid sol stp ps r ps' Hi Hu H.
  - cbn [walk_loop] in H. injection H as <- <-. split; [discriminate|by apply step_ok_refl].
  - cbn [walk_loop] in H.
    remember (if bool_decide (opcode (op a) = Jump) || bool_decide (opcode (op a) = Jumpi)
              then jump check jdest rec (opcode (op a)) pid sol stp ps
              else (POk (pid, sol, stp), ps)) as m eqn:Em.
    assert (Hm : m.1 <> OutOfFuel /\ step_ok jdest k ps m.2).
    { subst m. destruct (_ || _).
      - destruct (jump check jdest rec (opcode (op a)) pid sol stp ps) as [r1 ps1] eqn:E.
        by eapply jump_ok.
      - split; [discriminate|by apply step_ok_refl]. }
    clear Em. destruct m as [[[[pid1 sol1] stp1]|e| |] ps1]; cbn [sbind fst snd] in H, Hm;
      destruct Hm as [Hr1 Hs1];
      [|injection H as <- <-; (split; [discriminate|done])..|done].
    destruct (Prover_step stp1 a) as [stp2|e|]; cbn [lift sbind] in H;
      [|injection H as <- <-; (split; [discriminate|done])..].
    destruct (record_step_facts jdest k sol1 stp2 ps1) as (Hri & Hrg & Hrp).
    assert (Hs2 : step_ok jdest k ps (set_tree ps1 (record_step k sol1 stp2 (tree ps1)))).
    { eapply step_ok_trans; [exact Hs1|]. pose proof Hs1 as (Hi1 & _).
      split_and!; [by apply Hri|done|done]. }
    destruct (has_ret (step_ret stp2)).
    + injection H as <- <-. split; [discriminate|done].
    + pose proof Hs2 as (Hi2 & Hg2 & _).
      destruct (IH pid1 sol1 stp2 _ r ps' Hi2) as [Hr Hs3]; [|exact H|].
      { pose proof (unvisited_mono jdest _ _ (proj1 Hg2)). lia. }
      split; [done|by eapply step_ok_trans].
Qed.

Lemma Prover_path_ok check code jdest (f : nat) :
  path_ok jdest (Prover_path check code jdest f) f.
Proof.
  induction f as [|f IH]; intros pid ps stp pc0 Hi Hu r ps' H; [lia|].
  cbn [Prover_path] in H.
  destruct (walk_loop_ok check jdest _ f pid _ IH _ _ _ _ _ _ Hi ltac:(lia) H)
    as [Hr (Hi' & Hg & Hpd)].
  split_and!; [done|done|done|].
  unfold paid, has_key in Hpd. destruct (tree ps !! pid), (tree ps' !! pid); lia.
Qed.

(** ** Errors of the explorer *)




Lemma keeps_below_visit_enter p d ps ps' :
  keeps_below p (enter d (visit d ps)) ps' -> keeps_below p ps ps'.
Proof. done. Qed.











(** ** Claims *)

(** C1: the path explorer terminates on every program: the recursion
    budget [walk] gives it, one more than the number of jump
    destinations, is never exhausted, whatever the answers of the
    solver.  The destinations at which a branch is started are pairwise
    distinct (each one is entered at most once, being first added to
    the visited set [vdest]), are all in the static jumpdest set, and
    the tree has at most one entry more (the trunk) than there are
    entered destinations. *)
Theorem Prover_walk_terminates check code :
  let '(r, ps) := Prover_walk check code in
  r <> OutOfFuel /\ NoDup (entered ps) /\ NoDup (vdest ps) /\
  Forall (fun d => d ∈ get_jumpdest code) (entered ps) /\
  (size (tree ps) <= length (entered ps) + 1)%nat.
Proof.
  unfold Prover_walk. destruct code as [|first rest].
  - split_and!; [discriminate|apply NoDup_nil_2|apply NoDup_nil_2|by apply Forall_nil|].
    unfold tree, PState_empty. rewrite map_size_empty. simpl. lia.
  - match goal with |- context [Prover_path ?c ?cd ?jd ?f ?pid ?ps0 ?stp ?pc] =>
      destruct (Prover_path c cd jd f pid ps0 stp pc) as [r ps] eqn:E end.
    set (jd := get_jumpdest (first :: rest)) in *.
    assert (H1 : explorer_inv jd PState_empty).
    { split_and!; simpl; [apply NoDup_nil_2|apply NoDup_nil_2|set_solver]. }
    assert (H2 : (unvisited jd (vdest PState_empty) < S (length jd))%nat).
    { pose proof (unvisited_le jd (vdest PState_empty)). lia. }
    destruct (Prover_path_ok check (first :: rest) jd (S (length jd)) _ _ _ _ H1 H2 r ps E)
      as (Hr & (Hv & He & Hs) & _ & Hsz).
    split_and!; [done|done|done| |].
    + apply Forall_forall. intros x Hx. by apply Hs.
    + simpl in Hsz. rewrite map_size_empty in Hsz. lia.
Qed.

(** C2 (a concrete jump to a pc that is not a JUMPDEST is not reverted):
    on 0x60035600 (PUSH1 3; JUMP; STOP) the destination 3 is not in the
    jumpdest set; whatever the solver, [run] succeeds with the trunk as
    its only branch, and none of the trunk's steps is reverted: the walk
    goes on with the STOP after the JUMP. *)
Theorem invalid_jump_continues check :
  branch_ids (run_bytes check [x60; x03; x56; x00]) = [0%nat] /\
  option_map (fun ss => (length ss, some_reverted ss))
    (branch_steps (run_bytes check [x60; x03; x56; x00]) 0) = Some (3%nat, false).
Proof. vm_compute. split; reflexivity. Qed.




(** C4 (STOP and RETURN never set the returned flag): STOP only records
    the instruction; [Prover::ret], used by RETURN, keeps the flag
    [ret] of the step as it was; so on 0x0050 the trunk is not stopped
    by the STOP and [run] fails on the POP with a stack underflow. *)
Theorem stop_return_keep_returned_flag :
  (forall stp pc0 pu, Prover_step stp {| pc := pc0; op := x00; pushes := pu |} =
                      Ok (set_op stp {| pc := pc0; op := x00; pushes := pu |})) /\
  (forall stp, match Prover_ret stp with
               | Ok s => ret (step_ret s) = ret (step_ret stp)
               | _ => True
               end) /\
  run_bytes any_sat [x00; x50] = PErr StackUnderflow.
Proof.
  split_and!; [reflexivity| |vm_compute; reflexivity].
  intros stp. unfold Prover_ret, s_pop32u, s_pop32, s_pop, obind.
  repeat case_match; simplify_eq/=; done.
Qed.

(** C5 (storage is not implemented): SLOAD and SSTORE reach the
    [todo!()] of [Prover::step], a panic, on every step;
    [EVMStorage::sstore] stores nothing; and [run] on 0x6001600055
    (PUSH1 1; PUSH1 0; SSTORE) panics. *)
Theorem storage_ops_panic :
  (forall stp pc0 pu, Prover_step stp {| pc := pc0; op := x54; pushes := pu |} = Panic /\
                      Prover_step stp {| pc := pc0; op := x55; pushes := pu |} = Panic) /\
  (forall s key value, EVMStorage_sstore s key value = Ok s \/
                       EVMStorage_sstore s key value = Panic) /\
  run_bytes any_sat [x60; x01; x60; x00; x55] = PPanic.
Proof.
  split_and!; [by split| |vm_compute; reflexivity].
  intros s key value. unfold EVMStorage_sstore.
  repeat case_match; auto.
Qed.

(** C6: for every byte sequence [B], the records decoded by
    [to_mnemonics] give back [B] when their opcode byte and immediate
    bytes are concatenated in order, and their pc advances (one plus the
    length of the immediate) add up to the length of [B]. *)
Theorem to_mnemonics_roundtrip (B : list byte) :
  List.concat (map record_bytes (to_mnemonics B)) = B /\
  list_sum (map pc_advance (to_mnemonics B)) = length B.
Proof.
  assert (H : List.concat (map record_bytes (to_mnemonics B)) = B).
  { unfold to_mnemonics. rewrite to_mnemonics_loop_concat by lia. done. }
  split; [done|]. rewrite <- length_concat_record_bytes, H. done.
Qed.

(** C7 (mstore then mload at the same offset does not give the value
    back): on a fresh memory, [mstore(8, 1)] then [mload(8)] returns the
    256-bit numeral 0; the bytecode 0x6001600852600851 (PUSH1 1; PUSH1 8;
    MSTORE; PUSH1 8; MLOAD) ends with the stack [0]. *)
Theorem mstore_mload_offset_8 :
  obind (EVMMemory_mstore None 8 (from_u64 1 256)) (fun m =>
    obind (EVMMemory_mload m 8) (fun '(v, _) => Ok v)) = Ok (from_u64 0 256) /\
  option_map (fun ss => last (stacks ss))
    (branch_steps (run_bytes any_sat [x60; x01; x60; x08; x52; x60; x08; x51]) 0)
    = Some (Some [from_u64 0 256]).
Proof. vm_compute. split; reflexivity. Qed.

(** C8 (DUPn and SWAPn index the stack from the bottom): on the stack
    [a; b] ([b] on top), DUP1 pushes a copy of the bottom [a] and SWAP1
    leaves the stack as it is; so after PUSH1 1; PUSH1 2 the bytecode's
    DUP1 (0x6001600280) leaves [1; 2; 1] and its SWAP1 (0x6001600290)
    leaves [1; 2]. *)
Theorem dup_swap_from_bottom :
  (forall stp a b pc0,
     obind (Prover_step (set_stack stp [a; b]) {| pc := pc0; op := x80; pushes := [] |})
       (fun s => Ok (stack s)) = Ok [a; b; a] /\
     obind (Prover_step (set_stack stp [a; b]) {| pc := pc0; op := x90; pushes := [] |})
       (fun s => Ok (stack s)) = Ok [a; b]) /\
  option_map (fun ss => last (stacks ss))
    (branch_steps (run_bytes any_sat [x60; x01; x60; x02; x80]) 0)
    = Some (Some [from_u64 1 256; from_u64 2 256; from_u64 1 256]) /\
  option_map (fun ss => last (stacks ss))
    (branch_steps (run_bytes any_sat [x60; x01; x60; x02; x90]) 0)
    = Some (Some [from_u64 1 256; from_u64 2 256]).
Proof. split_and!; [by split|vm_compute; reflexivity..]. Qed.

(** C9 (pop32 and pop64 panic on a symbolic top): when the top of the
    stack is an application of one of the uninterpreted 256-bit functions
    of the prover ([Symbolic]'s [calldata], [caller], [origin], ... and
    [sha3]), whatever its arguments, [pop32] and [pop64] panic instead of
    returning [None]; so [run] on 0x5F3551 (PUSH0; CALLDATALOAD; MLOAD)
    panics. *)
Theorem pop_narrow_symbolic_panics :
  Forall (fun f => forall s args,
            EVMStack_pop32 (s ++ [sym_app f args]) = Panic /\
            EVMStack_pop64 (s ++ [sym_app f args]) = Panic) uninterpreted_funs /\
  run_bytes any_sat [x5f; x35; x51] = PPanic.
Proof.
  split; [|vm_compute; reflexivity].
  apply Forall_forall. intros f _ s args.
  unfold EVMStack_pop32, EVMStack_pop64, Stack_pop, sym_app.
  rewrite rev_unit. split; reflexivity.
Qed.

(** C10: on an empty instruction list, whatever the solver, [run]
    panics ([self.code.first().unwrap()]) and returns neither a tree nor
    a revert reason, and so does [run] on the empty bytecode. *)
Theorem run_empty_code_panics check :
  Prover_run check [] = PPanic /\ run_bytes check [] = PPanic.
Proof. split; reflexivity. Qed.

(** ** Lemmas on [Prover::step] *)

Lemma obind_Ok {A B} (m : outcome A) (f : A -> outcome B) b :
  obind m f = Ok b -> exists a, m = Ok a /\ f a = Ok b.
Proof. destruct m; simpl; try discriminate. eauto. Qed.

Lemma Stack_pop_Ok s v s' : Stack_pop s = Ok (v, s') -> s = s' ++ [v].
Proof.
  unfold Stack_pop. destruct (List.rev s) as [|x r] eqn:E; [discriminate|].
  intros [= -> <-]. rewrite <- (rev_involutive s), E. done.
Qed.

Lemma Stack_push_Ok s v s' : Stack_push s v = Ok s' -> s' = s ++ [v] /\ length s <> 16%nat.
Proof. unfold Stack_push. case_match; [discriminate|]. intros [= <-]. split; [done|]. by apply Nat.eqb_neq. Qed.

Lemma EVMStack_push_Ok s v s' : EVMStack_push s v = Ok s' -> s' = s ++ [v] /\ length s <> 16%nat.
Proof. unfold EVMStack_push. case_match; [apply Stack_push_Ok|discriminate]. Qed.

Lemma EVMStack_pop32_Ok s r s' : EVMStack_pop32 s = Ok (r, s') -> exists v, s = s' ++ [v].
Proof.
  unfold EVMStack_pop32. intros H. apply obind_Ok in H as ([v s1] & H1 & H).
  apply Stack_pop_Ok in H1. apply obind_Ok in H as (b & _ & H).
  destruct b.
  - apply obind_Ok in H as (? & _ & H). apply obind_Ok in H as (? & _ & H).
    injection H as <- <-. eauto.
  - injection H as <- <-. eauto.
Qed.

Lemma s_pop_Ok st v st' : s_pop st = Ok (v, st') ->
  stack st = stack st' ++ [v] /\ step_ret st' = step_ret st /\ step_op st' = step_op st.
Proof.
  unfold s_pop. intros H. apply obind_Ok in H as ([v' s] & H1 & H).
  injection H as <- <-. apply Stack_pop_Ok in H1. done.
Qed.

Lemma s_push_Ok st v st' : s_push st v = Ok st' ->
  stack st' = stack st ++ [v] /\ length (stack st) <> 16%nat /\
  step_ret st' = step_ret st /\ step_op st' = step_op st.
Proof.
  unfold s_push. intros H. apply obind_Ok in H as (s & H1 & H).
  injection H as <-. apply EVMStack_push_Ok in H1 as [-> ?]. done.
Qed.

Lemma s_pop32_Ok st r st' : s_pop32 st = Ok (r, st') ->
  exists v, stack st = stack st' ++ [v] /\ step_ret st' = step_ret st /\ step_op st' = step_op st.
Proof.
  unfold s_pop32. intros H. apply obind_Ok in H as ([r' s] & H1 & H).
  injection H as <- <-. apply EVMStack_pop32_Ok in H1 as [v ->]. eauto.
Qed.

Lemma s_pop32u_Ok st r st' : s_pop32u st = Ok (r, st') ->
  exists v, stack st = stack st' ++ [v] /\ step_ret st' = step_ret st /\ step_op st' = step_op st.
Proof.
  unfold s_pop32u. intros H. apply obind_Ok in H as ([r' st1] & H1 & H).
  apply obind_Ok in H as (x & _ & H). injection H as <- <-.
  by apply s_pop32_Ok in H1.
Qed.

Lemma Stack_dupn_Ok s n s' : Stack_dupn s n = Ok s' -> exists w, s' = s ++ [w] /\ length s <> 16%nat.
Proof. unfold Stack_dupn. case_match; [|discriminate]. intros H'. apply Stack_push_Ok in H'. eauto. Qed.

Lemma vec_swap_0_perm s n : vec_swap s 0 n ≡ₚ s.
Proof.
  unfold vec_swap. destruct s as [|a t]; [done|]. destruct n as [|m]; simpl.
  - done.
  - destruct (t !! m) as [b|] eqn:Hb; [|done].
    assert (Hm : (m < length t)%nat) by (apply lookup_lt_is_Some; eauto).
    rewrite insert_take_drop by done.
    rewrite <- (take_drop_middle t m b Hb) at 3.
    rewrite <- !Permutation_middle. apply perm_swap.
Qed.

Lemma Stack_swapn_Ok s n s' : Stack_swapn s n = Ok s' -> s' ≡ₚ s.
Proof. unfold Stack_swapn. case_match; [|discriminate]. intros [= <-]. apply vec_swap_0_perm. Qed.

Lemma Prover_ret_Ok st st' : Prover_ret st = Ok st' ->
  (stack st' = stack st \/ exists a b, stack st = (stack st' ++ [b]) ++ [a]) /\
  ret (step_ret st') = ret (step_ret st) /\ rev (step_ret st') = rev (step_ret st) /\
  step_op st' = step_op st.
Proof.
  unfold Prover_ret. intros H. apply obind_Ok in H as (len & _ & H).
  destruct (is_zero_numeral len).
  - injection H as <-. simpl. auto.
  - apply obind_Ok in H as (l & _ & H).
    apply obind_Ok in H as ([off st1] & H1 & H). apply s_pop32u_Ok in H1 as (a & Ha & Hr1 & Ho1).
    apply obind_Ok in H as ([x st2] & H2 & H). apply s_pop_Ok in H2 as (Hb & Hr2 & Ho2).
    apply obind_Ok in H as (hi & _ & H).
    apply obind_Ok in H as ([r m] & _ & H). injection H as <-. simpl.
    rewrite Hr2, Hr1, Ho2, Ho1. split_and!; try done.
    right. exists a, x. rewrite Ha, Hb. done.
Qed.

Lemma Prover_ret_len st st' : Prover_ret st = Ok st' ->
  exists len, Stack_get (stack st) 1 = Ok len /\
    if is_zero_numeral len then stack st' = stack st
    else exists a b, stack st = (stack st' ++ [b]) ++ [a].
Proof.
  unfold Prover_ret. intros H. apply obind_Ok in H as (len & Hlen & H).
  exists len. split; [done|].
  destruct (is_zero_numeral len).
  - injection H as <-. done.
  - apply obind_Ok in H as (l & _ & H).
    apply obind_Ok in H as ([off st1] & H1 & H). apply s_pop32u_Ok in H1 as (a & Ha & _ & _).
    apply obind_Ok in H as ([x st2] & H2 & H). apply s_pop_Ok in H2 as (Hb & _ & _).
    apply obind_Ok in H as (hi & _ & H).
    apply obind_Ok in H as ([r m] & _ & H). injection H as <-. simpl.
    exists a, x. rewrite Ha, Hb. done.
Qed.

Lemma Prover_step_ret_len stp ins stp' :
  Prover_step stp ins = Ok stp' -> stack_effect (opcode (op ins)) = RetEffect ->
  exists len, Stack_get (stack stp) 1 = Ok len /\
    if is_zero_numeral len then stack stp' = stack stp
    else (2 <= length (stack stp))%nat /\ reverse (stack stp') = drop 2 (reverse (stack stp)).
Proof.
  unfold Prover_step. intros H Hr.
  assert (Hs : exists st, Prover_ret (set_op stp ins) = Ok st /\ stack stp' = stack st).
  { destruct (opcode (op ins)); try discriminate Hr.
    - eauto.
    - apply obind_Ok in H as (st & Hst & H). injection H as <-. eauto. }
  destruct Hs as (st & Hst & Hs). apply Prover_ret_len in Hst as (len & Hg & Hc).
  exists len. cbn [stack set_op] in Hg, Hc. split; [done|]. rewrite Hs.
  destruct (is_zero_numeral len); [done|]. destruct Hc as (a & b & Hc). rewrite Hc.
  rewrite !reverse_snoc, !length_app. simpl. split; [lia|done].
Qed.

Lemma Prover_code_copy_Ok addr d o sz st st' : Prover_code_copy addr d o sz st = Ok st' ->
  stack st' = stack st /\ step_ret st' = step_ret st /\ step_op st' = step_op st.
Proof.
  unfold Prover_code_copy. case_match; [discriminate|].
  intros Hc. apply obind_Ok in Hc as (m & _ & Hc). injection Hc as <-. done.
Qed.

Ltac inv_ok :=
  repeat match goal with
  | H : obind _ _ = Ok _ |- _ =>
      let x := fresh "x" in let Hx := fresh "Hx" in let H' := fresh "H" in
      apply obind_Ok in H as (x & Hx & H'); lazymatch type of x with (_ * _)%type => destruct x | _ => idtac end;
      cbv beta iota in H' 
  | H : Ok _ = Ok _ |- _ => injection H; clear H; intros; subst
  | H : Panic = Ok _ |- _ => discriminate H
  | H : Err _ = Ok _ |- _ => discriminate H
  | H : s_pop _ = Ok (_, _) |- _ => apply s_pop_Ok in H as (? & ? & ?)
  | H : s_pop32 _ = Ok (_, _) |- _ => apply s_pop32_Ok in H as (? & ? & ? & ?)
  | H : s_pop32u _ = Ok (_, _) |- _ => apply s_pop32u_Ok in H as (? & ? & ? & ?)
  | H : s_push _ _ = Ok _ |- _ => apply s_push_Ok in H as (? & ? & ? & ?)
  | H : binop _ _ = Ok _ |- _ => unfold binop in H
  | H : ternop _ _ = Ok _ |- _ => unfold ternop in H
  | H : Stack_dupn _ _ = Ok _ |- _ => apply Stack_dupn_Ok in H as (? & ? & ?)
  | H : Stack_swapn _ _ = Ok _ |- _ => apply Stack_swapn_Ok in H
  | H : Prover_code_copy _ _ _ _ _ = Ok _ |- _ => apply Prover_code_copy_Ok in H as (? & ? & ?)
  | H : Prover_ret _ = Ok _ |- _ =>
      let Hs := fresh "Hs" in
      apply Prover_ret_Ok in H as (Hs & ? & ? & ?); destruct Hs as [Hs|(? & ? & Hs)]
  end; subst.

Ltac stack_rewrite :=
  cbn [stack step_ret step_op set_op set_stack set_memory set_val set_rev val ret rev] in *;
  repeat match goal with
  | H : stack ?x = _ |- _ => is_var x; rewrite H in *; clear H
  | H : step_ret ?x = _ |- _ => is_var x; rewrite H in *; clear H
  | H : step_op ?x = _ |- _ => is_var x; rewrite H in *; clear H
  end.

(** ** Lemmas on the decoder and its analyses *)

Lemma nth_error_lookup {T} (l : list T) (i : nat) : nth_error l i = l !! i.
Proof. revert i. induction l; intros [|i]; simpl; auto. Qed.

Lemma to_mnemonics_loop_nonempty B fuel p :
  to_mnemonics_loop B fuel p <> [] -> (p < length B)%nat.
Proof.
  destruct fuel; simpl; [done|]. destruct (nth_error B p) eqn:E; [|done].
  intros _. apply nth_error_Some. congruence.
Qed.

Lemma to_mnemonics_loop_head B fuel p m ms :
  to_mnemonics_loop B fuel p = m :: ms ->
  pc m = p /\ B !! p = Some (op m) /\
  pushes m = take (default 0%nat (push_size (op m))) (drop (S p) B) /\
  ms = to_mnemonics_loop B (pred fuel) (p + S (default 0%nat (push_size (op m)))).
Proof.
  destruct fuel as [|fuel]; simpl; [done|].
  destruct (nth_error B p) as [b|] eqn:E; [|done].
  rewrite nth_error_lookup in E.
  destruct (push_size b) as [n|] eqn:Hp; simpl; intros [= <- <-]; simpl; rewrite ?Hp.
  - rewrite get_slice_firstn. split_and!; simpl; rewrite ?Nat.add_1_r; try done; f_equal; lia.
  - split_and!; simpl; rewrite ?Nat.add_1_r; try done; f_equal; lia.
Qed.

Lemma to_mnemonics_loop_pc_ge B fuel p m :
  m ∈ to_mnemonics_loop B fuel p -> (p <= pc m)%nat.
Proof.
  revert p. induction fuel as [|fuel IH]; intros p Hm.
  - simpl in Hm. by apply not_elem_of_nil in Hm.
  - destruct (to_mnemonics_loop B (S fuel) p) as [|m0 ms] eqn:E.
    + by apply not_elem_of_nil in Hm.
    + apply to_mnemonics_loop_head in E as (Hpc & _ & _ & ->). simpl in *.
      apply elem_of_cons in Hm as [->|Hm]; [lia|]. apply IH in Hm. lia.
Qed.

Lemma to_mnemonics_loop_lookup B fuel p i m :
  to_mnemonics_loop B fuel p !! i = Some m ->
  pc m = (p + list_sum (map pc_advance (take i (to_mnemonics_loop B fuel p))))%nat /\
  B !! pc m = Some (op m) /\
  pushes m = take (default 0%nat (push_size (op m))) (drop (S (pc m)) B).
Proof.
  revert fuel p. induction i as [|i IH]; intros fuel p Hi;
    destruct (to_mnemonics_loop B fuel p) as [|m0 ms] eqn:E; try discriminate.
  - simpl in Hi. injection Hi as <-.
    apply to_mnemonics_loop_head in E as (Hpc & Hop & Hpush & _). rewrite Hpc. simpl.
    split_and!; [lia|done|done].
  - simpl in Hi. assert (Hne : ms <> []) by (intros ->; rewrite lookup_nil in Hi; discriminate).
    apply to_mnemonics_loop_head in E as (Hpc & Hop & Hpush & Hms).
    rewrite Hms in Hi. destruct (IH _ _ Hi) as (Hpc' & Hop' & Hpush'). rewrite <- Hms in Hpc'.
    split_and!; try done. rewrite Hpc'. simpl.
    rewrite Hms in Hne. apply to_mnemonics_loop_nonempty in Hne.
    unfold pc_advance. rewrite Hpush, length_take, length_drop. lia.
Qed.

Lemma opcode_jumpdest (b : byte) : opcode b = Jumpdest <-> b = x5b.
Proof. destruct b; split; intros H; first [reflexivity | (vm_compute in H; discriminate) | (subst; vm_compute; reflexivity)]. Qed.

Lemma to_mnemonics_loop_starts B fuel p0 p :
  (length B - p0 <= fuel)%nat -> (p0 <= p)%nat ->
  (exists m, m ∈ to_mnemonics_loop B fuel p0 /\ pc m = p) <->
  ((p < length B)%nat /\
   ~ (exists m, m ∈ to_mnemonics_loop B fuel p0 /\ (pc m < p <= pc m + length (pushes m))%nat)).
Proof.
  revert p0. induction fuel as [|fuel IH]; intros p0 Hf Hp.
  - simpl. split; [intros (m & Hm & _); by apply not_elem_of_nil in Hm|lia].
  - destruct (to_mnemonics_loop B (S fuel) p0) as [|r ms] eqn:E.
    + assert (Hlen : (length B <= p0)%nat).
      { simpl in E. destruct (nth_error B p0) eqn:Hb; [destruct (push_size _); discriminate|].
        by apply nth_error_None in Hb. }
      split; [intros (m & Hm & _); by apply not_elem_of_nil in Hm|lia].
    + assert (Hlt : (p0 < length B)%nat)
        by (apply (to_mnemonics_loop_nonempty B (S fuel)); by rewrite E).
      apply to_mnemonics_loop_head in E as (Hpc & _ & Hpush & Hms). simpl in Hms.
      set (n := default 0%nat (push_size (op r))) in *.
      assert (HL : length (pushes r) = Nat.min n (length B - S p0))
        by (rewrite Hpush, length_take, length_drop; lia).
      assert (Hge : forall m, m ∈ ms -> (p0 + S n <= pc m)%nat)
        by (intros m Hm; rewrite Hms in Hm; by apply to_mnemonics_loop_pc_ge in Hm).
      destruct (decide (p = p0)) as [->|Hne].
      * split; [|intros _; exists r; split; [left|done]].
        intros _. split; [done|]. intros (m & Hm & Hr).
        apply elem_of_cons in Hm as [->|Hm]; [lia|]. apply Hge in Hm. lia.
      * destruct (decide (p <= p0 + n)%nat) as [Hin|Hout].
        -- split.
           ++ intros (m & Hm & Hpm). apply elem_of_cons in Hm as [->|Hm]; [lia|].
              apply Hge in Hm. lia.
           ++ intros [Hpl Hnot]. exfalso. apply Hnot. exists r. split; [left|lia].
        -- assert (IH' := IH (p0 + S n)%nat ltac:(lia) ltac:(lia)). rewrite <- Hms in IH'.
           split.
           ++ intros (m & Hm & Hpm). apply elem_of_cons in Hm as [->|Hm]; [lia|].
              destruct (proj1 IH' (ex_intro _ m (conj Hm Hpm))) as [Hpl Hnot].
              split; [done|]. intros (m' & Hm' & Hr). apply elem_of_cons in Hm' as [->|Hm'];
                [lia|]. apply Hnot. eauto.
           ++ intros [Hpl Hnot]. destruct (proj2 IH') as (m & Hm & Hpm).
              ** split; [done|]. intros (m' & Hm' & Hr). apply Hnot. exists m'.
                 split; [by right|done].
              ** exists m. split; [by right|done].
Qed.

Lemma to_mnemonics_elem B m :
  m ∈ to_mnemonics B ->
  B !! pc m = Some (op m) /\
  pushes m = take (default 0%nat (push_size (op m))) (drop (S (pc m)) B).
Proof.
  intros Hm. apply list_elem_of_lookup in Hm as [i Hi].
  apply to_mnemonics_loop_lookup in Hi as (_ & ? & ?). done.
Qed.

Lemma push_size_4 (b : byte) : push_size b = Some 4%nat <-> b = x63.
Proof. destruct b; split; intros H; first [reflexivity | (vm_compute in H; discriminate) | (subst; vm_compute; reflexivity)]. Qed.

(** ** Lemmas on the stack *)

Lemma chunks_zero (k : Z) (m : nat) (u : Z) :
  0 < k -> 0 <= u < 2 ^ (k * Z.of_nat m) ->
  (forall j, (j < m)%nat -> Z.shiftr u (Z.of_nat j * k) mod 2 ^ k = 0) <-> u = 0.
Proof.
  intros Hk. revert u. induction m as [|m IH]; intros u Hu.
  - simpl in Hu. rewrite Z.mul_0_r in Hu. split; [lia|]. intros _ j Hj. lia.
  - split.
    + intros Hc.
      assert (H0 : u mod 2 ^ k = 0) by (specialize (Hc 0%nat ltac:(lia)); by rewrite Z.shiftr_0_r in Hc).
      set (u' := Z.shiftr u k).
      assert (Hu' : 0 <= u' < 2 ^ (k * Z.of_nat m)).
      { unfold u'. rewrite Z.shiftr_div_pow2 by lia. split; [apply Z.div_pos; lia|].
        apply Z.div_lt_upper_bound; [lia|]. rewrite <- Z.pow_add_r by lia.
        replace (k + k * Z.of_nat m) with (k * Z.of_nat (S m)) by lia. lia. }
      assert (Hz : u' = 0).
      { apply (IH u' Hu'). intros j Hj. unfold u'. rewrite Z.shiftr_shiftr by lia.
        replace (k + Z.of_nat j * k) with (Z.of_nat (S j) * k) by lia. apply Hc. lia. }
      unfold u' in Hz. rewrite Z.shiftr_div_pow2 in Hz by lia.
      rewrite (Z.div_mod u (2 ^ k)) by lia. rewrite Hz, H0. lia.
    + intros -> j _. rewrite Z.shiftr_0_l. done.
Qed.

Lemma narrow_loop_const (k : N) (is : list N) (v : Z) :
  (0 < k <= 64)%N -> Forall (fun i => ((i + 1) * k - 1 < 256)%N /\ (0 < i)%N) is ->
  narrow_loop k is (BVConst 256 v) =
  Ok (forallb (fun i => Z.shiftr v (Z.of_N (i * k)) mod 2 ^ Z.of_N k =? 0) is).
Proof.
  intros Hk. induction is as [|i is IH]; intros Hall; [done|].
  apply Forall_cons in Hall as [[Hi Hi0] Hall]. simpl.
  unfold extract. simpl.
  replace ((i * k <=? (i + 1) * k - 1)%N && ((i + 1) * k - 1 <? 256)%N) with true by
    (symmetry; apply andb_true_iff; split; [apply N.leb_le|apply N.ltb_lt]; lia).
  simpl. replace ((i + 1) * k - 1 - i * k + 1)%N with k by lia.
  set (c := Z.shiftr v (Z.of_N (i * k)) mod 2 ^ Z.of_N k).
  assert (Hc : 0 <= c < 2 ^ 64).
  { unfold c. split; [apply Z.mod_pos_bound; lia|].
    apply (Z.lt_le_trans _ (2 ^ Z.of_N k)); [apply Z.mod_pos_bound; lia|].
    apply Z.pow_le_mono_r; lia. }
  unfold as_u64. replace (c <? 2 ^ 64) with true by (symmetry; apply Z.ltb_lt; lia). simpl.
  destruct (c =? 0) eqn:E; simpl.
  - by apply IH.
  - done.
Qed.

Lemma narrow_all_zero (k : N) (m : nat) (v : Z) :
  (0 < k)%N -> 0 <= v < 2 ^ (Z.of_N k * Z.of_nat (S m)) ->
  forallb (fun i => Z.shiftr v (Z.of_N (i * k)) mod 2 ^ Z.of_N k =? 0)
    (map N.of_nat (List.rev (seq 1 m))) = (v <? 2 ^ Z.of_N k).
Proof.
  intros Hk Hv. set (u := Z.shiftr v (Z.of_N k)).
  assert (Hu : 0 <= u < 2 ^ (Z.of_N k * Z.of_nat m)).
  { unfold u. rewrite Z.shiftr_div_pow2 by lia. split; [apply Z.div_pos; lia|].
    apply Z.div_lt_upper_bound; [lia|]. rewrite <- Z.pow_add_r by lia.
    replace (Z.of_N k + Z.of_N k * Z.of_nat m) with (Z.of_N k * Z.of_nat (S m)) by lia. lia. }
  assert (Hz : u = 0 <-> v < 2 ^ Z.of_N k).
  { unfold u. rewrite Z.shiftr_div_pow2 by lia. split.
    - intros H. destruct (Z.lt_ge_cases v (2 ^ Z.of_N k)) as [|Hge]; [done|].
      assert (1 <= v / 2 ^ Z.of_N k); [|lia].
      apply Z.div_le_lower_bound; lia.
    - intros H. apply Z.div_small. lia. }
  apply eq_true_iff_eq. rewrite forallb_forall, Z.ltb_lt, <- Hz.
  rewrite <- (chunks_zero (Z.of_N k) m u) by (done || lia).
  split.
  - intros H j Hj. unfold u. rewrite Z.shiftr_shiftr by lia.
    specialize (H (N.of_nat (S j))). apply Z.eqb_eq.
    replace (Z.of_N k + Z.of_nat j * Z.of_N k) with (Z.of_N (N.of_nat (S j) * k)) by lia.
    apply H. apply in_map. apply in_rev. rewrite rev_involutive. apply in_seq. lia.
  - intros H i Hi. apply in_map_iff in Hi as (n & <- & Hn).
    apply in_rev, in_seq in Hn. apply Z.eqb_eq.
    destruct n as [|j]; [lia|]. specialize (H j ltac:(lia)). unfold u in H.
    rewrite Z.shiftr_shiftr in H by lia.
    replace (Z.of_N k + Z.of_nat j * Z.of_N k) with (Z.of_N (N.of_nat (S j) * k)) in H by lia.
    done.
Qed.

Lemma Stack_pop_snoc (s : Stack) (v : BV) : Stack_pop (s ++ [v]) = Ok (v, s).
Proof. unfold Stack_pop. rewrite rev_app_distr. simpl. by rewrite rev_involutive. Qed.

Lemma EVMStack_pop32_zero (s : Stack) : EVMStack_pop32 (s ++ [BVConst 256 0]) = Ok (Some 0, s).
Proof. unfold EVMStack_pop32. rewrite Stack_pop_snoc. vm_compute. reflexivity. Qed.

(** ** Lemmas on [U256] and [to_bv] *)

Lemma be_fold_acc (l : list Z) (acc : Z) :
  fold_left (fun acc b => acc * 256 + b) l acc = acc * 256 ^ Z.of_nat (length l) + be_val l.
Proof.
  unfold be_val. revert acc. induction l as [|b l IH]; intros acc; simpl.
  - lia.
  - rewrite (IH (acc * 256 + b)), (IH (0 * 256 + b)).
    rewrite Nat2Z.inj_succ, Z.pow_succ_r by lia. lia.
Qed.

Lemma be_val_cons (b : Z) (l : list Z) : be_val (b :: l) = b * 256 ^ Z.of_nat (length l) + be_val l.
Proof. unfold be_val at 1. simpl. rewrite be_fold_acc. lia. Qed.

Lemma lor_shift_byte (r b : Z) :
  0 <= r < 10 -> 0 <= b < 256 -> Z.lor (Z.shiftl r 8 mod 2 ^ 16) b = r * 256 + b.
Proof.
  intros Hr Hb. rewrite Z.shiftl_mul_pow2 by lia. rewrite Z.mod_small by lia.
  rewrite <- Z.lxor_lor.
  - rewrite <- Z.add_nocarry_lxor; [lia|].
    apply Z.bits_inj'. intros i Hi. rewrite Z.land_spec, Z.bits_0.
    destruct (Z.lt_ge_cases i 8) as [Hlt|Hge].
    + rewrite Z.mul_pow2_bits_low by lia. done.
    + rewrite (Z.bits_above_log2 b i); [by rewrite andb_false_r|lia|].
      destruct (Z.eq_dec b 0) as [->|Hb0]; [simpl; lia|].
      assert (Z.log2 b < 8) by (apply Z.log2_lt_pow2; lia). lia.
  - apply Z.bits_inj'. intros i Hi. rewrite Z.land_spec, Z.bits_0.
    destruct (Z.lt_ge_cases i 8) as [Hlt|Hge].
    + rewrite Z.mul_pow2_bits_low by lia. done.
    + rewrite (Z.bits_above_log2 b i); [by rewrite andb_false_r|lia|].
      destruct (Z.eq_dec b 0) as [->|Hb0]; [simpl; lia|].
      assert (Z.log2 b < 8) by (apply Z.log2_lt_pow2; lia). lia.
Qed.

Lemma div10_pass_spec (bytes : list Z) (rem : Z) :
  bytes_ok bytes -> 0 <= rem < 10 ->
  let '(q, r) := div10_pass bytes rem in
  rem * 256 ^ Z.of_nat (length bytes) + be_val bytes = 10 * be_val q + r /\
  0 <= r < 10 /\ length q = length bytes /\ bytes_ok q.
Proof.
  revert rem. induction bytes as [|b bs IH]; intros rem Hok Hr; simpl.
  - unfold be_val. simpl. split_and!; try lia. constructor.
  - apply Forall_cons in Hok as [Hb Hok].
    rewrite lor_shift_byte by lia.
    set (loaned := rem * 256 + b).
    assert (Hl10 : 0 <= loaned mod 10 < 10) by (apply Z.mod_pos_bound; lia).
    specialize (IH (loaned mod 10) Hok Hl10).
    destruct (div10_pass bs (loaned mod 10)) as [q r] eqn:E.
    destruct IH as (Heq & Hr' & Hlen & Hq).
    assert (Hq0 : 0 <= loaned / 10 < 256) by (unfold loaned; split; [apply Z.div_pos|apply Z.div_lt_upper_bound]; lia).
    rewrite (Z.mod_small (loaned / 10)) by lia.
    split_and!.
    + rewrite !be_val_cons, Hlen. simpl length. rewrite Nat2Z.inj_succ, Z.pow_succ_r by lia.
      assert (Hd := Z.div_mod loaned 10 ltac:(lia)). unfold loaned in *. nia.
    + lia.
    + lia.
    + simpl. rewrite Hlen. done.
    + constructor; [lia|done].
Qed.

Lemma dec_val_snoc (rems : list Z) (r : Z) :
  dec_val (rems ++ [r]) = dec_val rems + r * 10 ^ Z.of_nat (length rems).
Proof.
  induction rems as [|d rems IH]; simpl; [lia|].
  rewrite IH, Nat2Z.inj_succ, Z.pow_succ_r by lia. lia.
Qed.

Lemma be_val_nonneg (l : list Z) : bytes_ok l -> 0 <= be_val l.
Proof.
  induction l as [|b l IH]; intros Hok; [done|].
  apply Forall_cons in Hok as [Hb Hok]. rewrite be_val_cons.
  specialize (IH Hok). assert (0 <= 256 ^ Z.of_nat (length l)) by lia. nia.
Qed.

Lemma be_val_lt (l : list Z) : bytes_ok l -> be_val l < 256 ^ Z.of_nat (length l).
Proof.
  induction l as [|b l IH]; intros Hok; [done|].
  apply Forall_cons in Hok as [Hb Hok]. rewrite be_val_cons. simpl length.
  rewrite Nat2Z.inj_succ, Z.pow_succ_r by lia. specialize (IH Hok). nia.
Qed.

Lemma drop_zero_head (q : list Z) :
  bytes_ok q ->
  let q' := match q with Z0 :: t => t | _ => q end in
  be_val q' = be_val q /\ bytes_ok q' /\ (length q' <= length q)%nat /\
  (be_val q = 0 -> q <> [] -> (length q' < length q)%nat).
Proof.
  intros Hok. destruct q as [|b t]; simpl; [split_and!; done|].
  apply Forall_cons in Hok as [Hb Hok].
  assert (Ht := be_val_nonneg t Hok).
  destruct b as [|p|p]; simpl.
  - rewrite be_val_cons. split_and!; [lia|done|lia|lia].
  - split_and!; [done|by constructor|done|].
    intros H _. rewrite be_val_cons in H. assert (0 < 256 ^ Z.of_nat (length t)) by lia. nia.
  - lia.
Qed.

Lemma to_string_loop_spec (fuel : nat) (bytes rems : list Z) (k : nat) :
  bytes_ok bytes -> Forall (fun d => 0 <= d < 10) rems ->
  be_val bytes < 10 ^ Z.of_nat k -> (1 + k + length bytes <= fuel)%nat ->
  exists rems', to_string_loop fuel bytes rems = Some rems' /\
    dec_val rems' = dec_val rems + be_val bytes * 10 ^ Z.of_nat (length rems) /\
    Forall (fun d => 0 <= d < 10) rems'.
Proof.
  revert bytes rems k. induction fuel as [|fuel IH]; intros bytes rems k Hok Hd Hk Hf; [lia|].
  destruct bytes as [|b bs].
  - exists rems. unfold be_val. simpl. split_and!; [done|lia|done].
  - cbn [to_string_loop].
    assert (Hs := div10_pass_spec (b :: bs) 0 Hok ltac:(lia)).
    destruct (div10_pass (b :: bs) 0) as [q r] eqn:E.
    destruct Hs as (Heq & Hr & Hlen & Hq).
    assert (Hz := drop_zero_head q Hq). cbv zeta in Hz.
    set (q' := match q with Z0 :: t => t | _ => q end) in *.
    destruct Hz as (Hv' & Hok' & Hl' & Hdrop).
    assert (Hv := be_val_nonneg _ Hok). assert (Hvq := be_val_nonneg _ Hq).
    assert (Hd' : Forall (fun d => 0 <= d < 10) (rems ++ [r])) by (apply Forall_app; split; [done|by constructor]).
    destruct (Z.eq_dec (be_val q) 0) as [H0|Hn0].
    + destruct (IH q' (rems ++ [r]) k Hok' Hd') as (rems' & Hrun & Hval & Hdig).
      * rewrite Hv'. rewrite H0. lia.
      * assert (q <> []) by (intros ->; simpl in Hlen; lia).
        specialize (Hdrop H0 ltac:(done)). simpl in Hf. simpl in Hlen. lia.
      * exists rems'. split_and!; [done| |done].
        rewrite Hval, Hv', H0, dec_val_snoc. simpl in Heq. lia.
    + destruct k as [|k].
      * simpl in Hk. lia.
      * destruct (IH q' (rems ++ [r]) k Hok' Hd') as (rems' & Hrun & Hval & Hdig).
        -- rewrite Hv'. rewrite Nat2Z.inj_succ, Z.pow_succ_r in Hk by lia. simpl in Heq. lia.
        -- simpl in Hf, Hlen. lia.
        -- exists rems'. split_and!; [done| |done].
           rewrite Hval, Hv', dec_val_snoc, length_app. simpl length.
           rewrite Nat2Z.inj_add, Z.pow_add_r by lia. simpl in Heq. lia.
Qed.

Lemma append_digit_string (d : Z) (s : string) :
  String.append (digit_string d) s = String (ascii_of_nat (48 + Z.to_nat d)) s.
Proof. reflexivity. Qed.

Lemma parse_digits_string (l : list Z) (acc : Z) :
  Forall (fun d => 0 <= d < 10) l ->
  parse_digits (fold_right String.append EmptyString (map digit_string l)) acc = Some (horner l acc).
Proof.
  revert acc. induction l as [|d l IH]; intros acc Hl; [done|].
  apply Forall_cons in Hl as [Hd Hl]. cbn [map fold_right]. rewrite append_digit_string.
  remember (ascii_of_nat (48 + Z.to_nat d)) as c eqn:Hc.
  cbn [parse_digits]. subst c.
  rewrite nat_ascii_embedding by lia.
  replace (Z.of_nat (48 + Z.to_nat d) - 48) with d by lia.
  replace ((0 <=? d) && (d <=? 9)) with true by (symmetry; apply andb_true_iff; split; [apply Z.leb_le|apply Z.leb_le]; lia).
  apply IH, Hl.
Qed.

Lemma horner_skip_zeros (l : list Z) : horner (skip_zeros l) 0 = horner l 0.
Proof. induction l as [|[|p|p] l IH]; simpl; try done. Qed.

Lemma horner_rev (l : list Z) : horner (List.rev l) 0 = dec_val l.
Proof.
  unfold horner. induction l as [|d l IH]; [done|].
  cbn [List.rev dec_val fold_right]. rewrite fold_left_app, IH. simpl. fold (dec_val l). lia.
Qed.

Lemma skip_zeros_digits (l : list Z) :
  Forall (fun d => 0 <= d < 10) l -> Forall (fun d => 0 <= d < 10) (skip_zeros l).
Proof. induction l as [|[|p|p] l IH]; intros Hl; simpl; try done; apply IH; by inversion Hl. Qed.

Lemma skip_zeros_nil_horner (l : list Z) : skip_zeros l = [] -> horner l 0 = 0.
Proof.
  induction l as [|[|p|p] l IH]; intros H; simpl in H; try done.
  unfold horner in *. simpl. by apply IH.
Qed.

Lemma skip_zeros_head (l l' : list Z) (d : Z) : skip_zeros l = d :: l' -> d <> 0.
Proof.
  induction l as [|[|p|p] l IH]; intros H; simpl in H; try discriminate; [by apply IH|..];
    injection H as <- _; lia.
Qed.

Lemma horner_ge (l : list Z) (acc : Z) :
  Forall (fun d => 0 <= d < 10) l -> 0 <= acc -> acc <= horner l acc.
Proof.
  revert acc. induction l as [|d l IH]; intros acc Hl Ha; unfold horner in *; simpl; [lia|].
  apply Forall_cons in Hl as [Hd Hl].
  transitivity (acc * 10 + d); [lia|]. apply IH; [done|lia].
Qed.

Lemma digit_char_not_zero (d : Z) : 1 <= d <= 9 -> ascii_of_nat (48 + Z.to_nat d) <> "0"%char.
Proof.
  intros Hd Heq. apply (f_equal nat_of_ascii) in Heq.
  rewrite nat_ascii_embedding in Heq by lia. change (nat_of_ascii "0"%char) with 48%nat in Heq. lia.
Qed.

Lemma U256_to_string_val (bytes : U256) :
  bytes_ok bytes ->
  exists s, U256_to_string bytes = Some s /\ Int_from_str s = Some (be_val bytes) /\
    ((be_val bytes = 0 /\ s = "0"%string) \/
     (0 < be_val bytes /\ exists c r, s = String c r /\ c <> "0"%char)).
Proof.
  intros Hok. unfold U256_to_string.
  assert (Hlt : be_val bytes < 10 ^ Z.of_nat (3 * length bytes)).
  { apply (Z.lt_le_trans _ _ _ (be_val_lt bytes Hok)).
    rewrite Nat2Z.inj_mul, Z.pow_mul_r by lia.
    apply Z.pow_le_mono_l. lia. }
  destruct (to_string_loop_spec (S (4 * length bytes)) bytes [] (3 * length bytes) Hok
    ltac:(constructor) Hlt ltac:(lia)) as (rems & Hrun & Hval & Hdig).
  rewrite Hrun. cbn [dec_val fold_right length] in Hval.
  assert (Hrev : horner (List.rev rems) 0 = be_val bytes) by (rewrite horner_rev, Hval; lia).
  assert (Hd' := skip_zeros_digits (List.rev rems) ltac:(by apply Forall_rev)).
  destruct (skip_zeros (List.rev rems)) as [|d l] eqn:Hs.
  - apply skip_zeros_nil_horner in Hs. rewrite Hs in Hrev.
    exists "0"%string. split_and!; [reflexivity|rewrite <- Hrev; reflexivity|left; done].
  - assert (Hd0 := skip_zeros_head _ _ _ Hs).
    pose proof Hd' as Hd''. apply Forall_cons in Hd'' as [Hd Hl].
    exists (fold_right String.append EmptyString (map digit_string (d :: l))).
    split; [reflexivity|]. split.
    + transitivity (parse_digits (fold_right String.append EmptyString (map digit_string (d :: l))) 0);
        [reflexivity|].
      rewrite parse_digits_string by done. rewrite <- Hs, horner_skip_zeros, Hrev. done.
    + right. split.
      * rewrite <- Hrev, <- horner_skip_zeros, Hs. unfold horner. cbn [fold_left].
        pose proof (horner_ge l (0 * 10 + d) Hl ltac:(lia)). unfold horner in *. lia.
      * cbn [map fold_right]. rewrite append_digit_string.
        do 2 eexists. split; [reflexivity|]. apply digit_char_not_zero. lia.
Qed.

Lemma be_val_zeros (n : nat) (l : list Z) : be_val (repeat 0 n ++ l) = be_val l.
Proof. unfold be_val. rewrite fold_left_app. induction n; simpl; [done|]. done. Qed.

Lemma be_val_bytes (val : list byte) :
  be_val (map (fun b => Z.of_N (Byte.to_N b)) val) = fold_left (fun acc b => acc * 256 + Z.of_N (Byte.to_N b)) val 0.
Proof. unfold be_val. generalize 0. induction val as [|b val IH]; intros acc; simpl; [done|]. apply IH. Qed.

Lemma byte_range (b : byte) : 0 <= Z.of_N (Byte.to_N b) < 256.
Proof. destruct b; vm_compute; split; congruence. Qed.

Lemma bytes_ok_map (val : list byte) : bytes_ok (map (fun b => Z.of_N (Byte.to_N b)) val).
Proof.
  apply Forall_forall. intros x Hx. apply list_elem_of_In, in_map_iff in Hx as (b & <- & _).
  apply byte_range.
Qed.

Lemma le_val_bounds (l : list Z) : bytes_ok l -> 0 <= le_val l < 256 ^ Z.of_nat (length l).
Proof.
  induction l as [|b l IH]; intros Hok; cbn [le_val fold_right length]; [lia|].
  apply Forall_cons in Hok as [Hb Hok]. specialize (IH Hok). fold (le_val l).
  rewrite Nat2Z.inj_succ, Z.pow_succ_r by lia. nia.
Qed.

Lemma add_bytes_spec (a b : list Z) (c : bool) :
  length a = length b -> bytes_ok a -> bytes_ok b ->
  let '(r, c') := add_bytes a b c in
  le_val r + (if c' then 1 else 0) * 256 ^ Z.of_nat (length a) = le_val a + le_val b + (if c then 1 else 0)
  /\ length r = length a /\ bytes_ok r.
Proof.
  revert b c. induction a as [|x a IH]; intros [|y b] c Hl Ha Hb; simpl in Hl; try lia.
  - cbn. split_and!; [destruct c; lia|done|constructor].
  - apply Forall_cons in Ha as [Hx Ha]. apply Forall_cons in Hb as [Hy Hb].
    cbn [add_bytes]. set (sum := x + y + (if c then 1 else 0)).
    specialize (IH b (255 <? sum) (eq_add_S _ _ Hl) Ha Hb).
    destruct (add_bytes a b (255 <? sum)) as [r c'] eqn:E.
    destruct IH as (Heq & Hlr & Hr).
    cbn [le_val fold_right length] in *. fold (le_val r) (le_val a) (le_val b) in *.
    split_and!.
    + rewrite Nat2Z.inj_succ, Z.pow_succ_r by lia.
      assert (Hs : 0 <= sum < 512) by (unfold sum; destruct c; lia).
      destruct (Z.ltb_spec 255 sum) as [Hc|Hc].
      * assert (Hm : sum mod 256 = sum - 256) by (symmetry; apply Z.mod_unique with 1; lia).
        rewrite Hm. unfold sum in *. destruct c; lia.
      * rewrite Z.mod_small by lia. unfold sum in *. destruct c; lia.
    + simpl. lia.
    + constructor; [apply Z.mod_pos_bound; lia|done].
Qed.

Lemma sub_byte_cases (x y : Z) (c : bool) :
  0 <= x < 256 -> 0 <= y < 256 ->
  let sum := ((x - y) mod 2 ^ 16 - (if c then 1 else 0)) mod 2 ^ 16 in
  (0 <= x - y - (if c then 1 else 0) -> sum = x - y - (if c then 1 else 0)) /\
  (x - y - (if c then 1 else 0) < 0 -> sum = x - y - (if c then 1 else 0) + 2 ^ 16).
Proof.
  intros Hx Hy sum. unfold sum. rewrite Zminus_mod_idemp_l. split; intros Hd.
  - apply Z.mod_small. destruct c; lia.
  - symmetry. apply Z.mod_unique with (-1); destruct c; lia.
Qed.

Lemma sub_bytes_spec (a b : list Z) (c : bool) :
  length a = length b -> bytes_ok a -> bytes_ok b ->
  let '(r, c') := sub_bytes a b c in
  le_val r - (if c' then 1 else 0) * 256 ^ Z.of_nat (length a) = le_val a - le_val b - (if c then 1 else 0)
  /\ length r = length a /\ bytes_ok r.
Proof.
  revert b c. induction a as [|x a IH]; intros [|y b] c Hl Ha Hb; simpl in Hl; try lia.
  - cbn. split_and!; [destruct c; lia|done|constructor].
  - apply Forall_cons in Ha as [Hx Ha]. apply Forall_cons in Hb as [Hy Hb].
    cbn [sub_bytes]. assert (Hcases := sub_byte_cases x y c Hx Hy).
    set (sum := ((x - y) mod 2 ^ 16 - (if c then 1 else 0)) mod 2 ^ 16) in *.
    specialize (IH b (255 <? sum) (eq_add_S _ _ Hl) Ha Hb).
    destruct (sub_bytes a b (255 <? sum)) as [r c'] eqn:E.
    destruct IH as (Heq & Hlr & Hr).
    cbn [le_val fold_right length] in *. fold (le_val r) (le_val a) (le_val b) in *.
    destruct Hcases as [Hpos Hneg].
    split_and!.
    + rewrite Nat2Z.inj_succ, Z.pow_succ_r by lia.
      destruct (Z.le_gt_cases 0 (x - y - (if c then 1 else 0))) as [Hd|Hd].
      * rewrite (Hpos Hd) in *. rewrite (Z.mod_small _ 256) by (destruct c; lia).
        replace (255 <? x - y - (if c then 1 else 0)) with false in Heq by (symmetry; apply Z.ltb_ge; destruct c; lia).
        destruct c; lia.
      * rewrite (Hneg Hd) in *.
        replace (255 <? x - y - (if c then 1 else 0) + 2 ^ 16) with true in Heq by (symmetry; apply Z.ltb_lt; destruct c; lia).
        assert (Hm : (x - y - (if c then 1 else 0) + 2 ^ 16) mod 256 = x - y - (if c then 1 else 0) + 256)
          by (symmetry; apply Z.mod_unique with 255; destruct c; lia).
        rewrite Hm. destruct c; lia.
    + simpl. lia.
    + constructor; [apply Z.mod_pos_bound; lia|done].
Qed.

Lemma le_val_repeat0 (n : nat) : le_val (repeat 0 n) = 0.
Proof. induction n; cbn; [done|]. fold (le_val (repeat 0 n)). lia. Qed.

Lemma bytes_ok_repeat0 (n : nat) : bytes_ok (repeat 0 n).
Proof. induction n; constructor; [lia|done]. Qed.

(** ** Lemmas on the memory *)

Lemma concat_size (a b : BV) : get_size (concat a b) = (get_size a + get_size b)%N.
Proof. destruct a, b; done. Qed.

Lemma zero_ext_size (k : N) (a : BV) : get_size (zero_ext k a) = (get_size a + k)%N.
Proof. destruct a; done. Qed.

Lemma extract_Ok (hi lo : N) (t r : BV) :
  extract hi lo t = Ok r -> (lo <= hi < get_size t)%N /\ get_size r = (hi - lo + 1)%N.
Proof.
  unfold extract. destruct (N.leb_spec lo hi), (N.ltb_spec hi (get_size t)); cbn; try discriminate.
  intros Hr. injection Hr as <-. split; [lia|]. destruct t; done.
Qed.

Lemma Memory_set_zero (d w : BV) : Memory_set (Some d) 0 w = Panic.
Proof.
  unfold Memory_set, u32_add, u32_sub, obind.
  destruct (N.ltb_spec (get_size d) 0); [lia|].
  destruct (2 ^ 32 <=? 0 + get_size w)%N; [done|].
  destruct (get_size d <? 0 + get_size w)%N; done.
Qed.

(** ** Further properties of the code *)

(** X1: for every byte, the entry of [OPCODE_JUMPMAP] and the size
    functions agree: a [Push n] byte has [push_size] [Some n], a [Dup n]
    byte [dup_size] [Some n], a [Swap n] byte [swap_size] [Some n], and
    every other size function, as well as all three for any other byte,
    is [None]. *)
Theorem opcode_sizes_agree (b : byte) :
  match opcode b with
  | Push n => push_size b = Some n /\ dup_size b = None /\ swap_size b = None
  | Dup n => dup_size b = Some n /\ push_size b = None /\ swap_size b = None
  | Swap n => swap_size b = Some n /\ push_size b = None /\ dup_size b = None
  | _ => push_size b = None /\ dup_size b = None /\ swap_size b = None
  end.
Proof. destruct b; vm_compute; auto. Qed.

(** X2: on a range [start..end_] with [start <= end_], [get_slice] never
    fails: it returns the part of the range that lies inside the vector,
    which is the first [end_ - start] elements from [start] on (fewer, or
    none, when the range runs past the end). *)
Theorem get_slice_clamp {T} (v : list T) (start end_ : nat) :
  (start <= end_)%nat -> get_slice v start end_ = take (end_ - start) (drop start v).
Proof.
  intros H. replace end_ with (start + (end_ - start))%nat at 1 by lia.
  apply get_slice_firstn.
Qed.

Lemma get_slice_clamp_witness :
  exists (v : list Z) (start end_ : nat), (start <= end_)%nat /\
    get_slice v start end_ = take (end_ - start) (drop start v).
Proof.
  exists [1; 2; 3], 2%nat, 5%nat. split; [lia|]. apply get_slice_clamp. lia.
Defined.

(** X3: the [i]-th record decoded by [to_mnemonics B] starts at the sum
    of the sizes (one plus the immediate length) of the records before
    it; the byte of [B] at its [pc] is its opcode, and its [pushes] are
    the [push_size] bytes that follow in [B], cut short at the end of [B]. *)
Theorem to_mnemonics_placement (B : list byte) (i : nat) (m : Mnemonic) :
  to_mnemonics B !! i = Some m ->
  pc m = list_sum (map pc_advance (take i (to_mnemonics B))) /\
  B !! pc m = Some (op m) /\
  pushes m = take (default 0%nat (push_size (op m))) (drop (S (pc m)) B).
Proof. intros H. apply (to_mnemonics_loop_lookup B (length B) 0 i m H). Qed.

Lemma to_mnemonics_placement_witness :
  exists (B : list byte) (i : nat) (m : Mnemonic), to_mnemonics B !! i = Some m /\
    (pc m = list_sum (map pc_advance (take i (to_mnemonics B))) /\
     B !! pc m = Some (op m) /\
     pushes m = take (default 0%nat (push_size (op m))) (drop (S (pc m)) B)).
Proof.
  exists [x60; x01; x5b], 1%nat, {| pc := 2; op := x5b; pushes := [] |}.
  assert (H : to_mnemonics [x60; x01; x5b] !! 1%nat = Some {| pc := 2; op := x5b; pushes := [] |})
    by reflexivity.
  split; [exact H|]. exact (to_mnemonics_placement _ _ _ H).
Defined.

(** X4: [get_jumpdest (to_mnemonics B)] holds exactly the positions [p]
    where [B] has the byte 0x5b and [p] is not inside the immediate bytes
    of a decoded push. *)
Theorem get_jumpdest_positions B p :
  Z.of_nat p ∈ get_jumpdest (to_mnemonics B) <->
  B !! p = Some x5b /\
  ~ (exists m, m ∈ to_mnemonics B /\ (pc m < p <= pc m + length (pushes m))%nat).
Proof.
  assert (Hs := to_mnemonics_loop_starts B (length B) 0 p ltac:(lia) ltac:(lia)).
  fold (to_mnemonics B) in Hs.
  unfold get_jumpdest. rewrite list_elem_of_In, in_map_iff. setoid_rewrite <- list_elem_of_In.
  setoid_rewrite list_elem_of_filter. split.
  - intros (m & Hp & Hj & Hm). apply Nat2Z.inj in Hp.
    destruct (to_mnemonics_elem B m Hm) as [Hop _].
    apply bool_decide_unpack in Hj. apply opcode_jumpdest in Hj.
    subst p. unfold OpCode in Hop. split; [congruence|]. apply (proj1 Hs). eauto.
  - intros [Hb Hnot]. destruct (proj2 Hs) as (m & Hm & Hpm).
    + split; [|done]. apply lookup_lt_is_Some. eauto.
    + exists m. destruct (to_mnemonics_elem B m Hm) as [Hop _]. unfold OpCode in Hop.
      split_and!; [by rewrite Hpm| |done].
      apply bool_decide_pack, opcode_jumpdest. congruence.
Qed.

(** X5: [get_selectors (to_mnemonics B)] holds exactly the big-endian
    values of the four bytes after a decoded record that is a PUSH4 with
    all four immediate bytes present, or a longer push cut short by the
    end of [B] so that exactly four immediate bytes remain. *)
Theorem get_selectors_sources B x :
  x ∈ get_selectors (to_mnemonics B) <->
  exists m, m ∈ to_mnemonics B /\
    ((op m = x63 /\ (pc m + 5 <= length B)%nat) \/
     (exists n, push_size (op m) = Some n /\ (4 < n)%nat /\ (pc m + 5)%nat = length B)) /\
    x = u32_from_be_bytes (take 4 (drop (S (pc m)) B)).
Proof.
  unfold get_selectors. rewrite list_elem_of_In, in_map_iff.
  setoid_rewrite filter_In. setoid_rewrite <- list_elem_of_In.
  split.
  - intros (m & Hx & Hm & Hl). apply Nat.eqb_eq in Hl. exists m. split; [done|].
    destruct (to_mnemonics_elem B m Hm) as [Hop Hpush]. unfold OpCode in Hop.
    assert (Hlt : (pc m < length B)%nat) by (apply lookup_lt_is_Some; eauto).
    rewrite Hpush, length_take, length_drop in Hl.
    destruct (push_size (op m)) as [n|] eqn:Hps; simpl in Hl; [|lia].
    destruct (decide (n = 4%nat)) as [->|Hn].
    + split; [left; split; [by apply push_size_4|lia]|].
      rewrite <- Hx, Hpush. done.
    + split; [right; exists n; split_and!; [done|lia|lia]|].
      rewrite <- Hx, Hpush.
      rewrite (take_ge (drop _ B) n). 2: (rewrite length_drop; lia). rewrite (take_ge _ 4). done. rewrite length_drop. lia.
  - intros (m & Hm & Hcase & Hx). exists m.
    destruct (to_mnemonics_elem B m Hm) as [Hop Hpush].
    split; [|split; [done|]].
    + rewrite Hx, Hpush. destruct Hcase as [[Hop4 Hl]|(n & Hps & Hn & Hl)].
      * apply push_size_4 in Hop4. rewrite Hop4. done.
      * rewrite Hps. simpl. rewrite !take_ge by (rewrite length_drop; lia). done.
    + apply Nat.eqb_eq. rewrite Hpush, length_take, length_drop.
      destruct Hcase as [[Hop4 Hl]|(n & Hps & Hn & Hl)].
      * apply push_size_4 in Hop4. rewrite Hop4. cbn [default id]. lia.
      * rewrite Hps. cbn [default id]. lia.
Qed.

(** X6: [Stack::get(n)] returns the element [n] places below the top of
    the stack (the end of the [Vec]), and [StackUnderflow] when the
    stack has at most [n] elements. *)
Theorem Stack_get_from_top (s : Stack) (n : nat) :
  Stack_get s n = match reverse s !! n with Some w => Ok w | None => Err StackUnderflow end.
Proof.
  unfold Stack_get. destruct (Nat.ltb_spec (length s) (n + 1)).
  - rewrite lookup_ge_None_2; [done|]. rewrite length_reverse. lia.
  - rewrite reverse_lookup by lia. replace (length s - S n)%nat with (length s - (n + 1))%nat by lia.
    done.
Qed.

(** X7: a push followed by a pop gives back the pushed value and the
    original stack, unless the stack already holds 16 elements, where the
    push fails with [StackOverflow]. *)
Theorem Stack_push_pop (s : Stack) (v : BV) :
  obind (Stack_push s v) Stack_pop =
  if (length s =? 16)%nat then Err StackOverflow else Ok (v, s).
Proof.
  unfold Stack_push. destruct (length s =? 16)%nat; [done|]. simpl.
  unfold Stack_pop. rewrite rev_app_distr. simpl. rewrite rev_involutive. done.
Qed.

(** X8: when the top of the stack is a 256-bit numeral [v], [pop32]
    returns [Some v] if [v < 2^32] and [None] otherwise, [pop64] returns
    [Some v] if [v < 2^64] and [None] otherwise, and both remove the top. *)
Theorem EVMStack_pop_numeral (s : Stack) (v : Z) :
  0 <= v < 2 ^ 256 ->
  EVMStack_pop32 (s ++ [BVConst 256 v]) = Ok (if v <? 2 ^ 32 then Some v else None, s) /\
  EVMStack_pop64 (s ++ [BVConst 256 v]) = Ok (if v <? 2 ^ 64 then Some v else None, s).
Proof.
  intros Hv. unfold EVMStack_pop32, EVMStack_pop64. rewrite Stack_pop_snoc. cbn [obind].
  rewrite !narrow_loop_const; cycle 1.
  { lia. } { repeat constructor; lia. } { lia. } { repeat constructor; lia. }
  change [7; 6; 5; 4; 3; 2; 1]%N with (map N.of_nat (List.rev (seq 1 7))).
  change [3; 2; 1]%N with (map N.of_nat (List.rev (seq 1 3))).
  rewrite !narrow_all_zero; cycle 1.
  { lia. } { lia. } { lia. } { lia. }
  change (Z.of_N 32) with 32. change (Z.of_N 64) with 64. cbn [obind]. split.
  - destruct (Z.ltb_spec v (2 ^ 32)); cbn [obind]; [|done].
    unfold extract, as_u64. cbn [get_size].
    change (Z.of_N (31 - 0 + 1)) with 32. change (Z.of_N 0) with 0.
    change ((0 <=? 31)%N && (31 <? 256)%N) with true.
    rewrite Z.shiftr_0_r, Z.mod_small by lia. cbn [obind unwrap].
    replace (v <? 2 ^ 64) with true by (symmetry; apply Z.ltb_lt; lia). done.
  - destruct (Z.ltb_spec v (2 ^ 64)); cbn [obind]; [|done].
    unfold extract, as_u64. cbn [get_size].
    change (Z.of_N (63 - 0 + 1)) with 64. change (Z.of_N 0) with 0.
    change ((0 <=? 63)%N && (63 <? 256)%N) with true.
    rewrite Z.shiftr_0_r, Z.mod_small by lia. cbn [obind unwrap].
    replace (v <? 2 ^ 64) with true by (symmetry; apply Z.ltb_lt; lia). done.
Qed.

Lemma EVMStack_pop_numeral_witness :
  exists (s : Stack) (v : Z), 0 <= v < 2 ^ 256 /\
    (EVMStack_pop32 (s ++ [BVConst 256 v]) = Ok (if v <? 2 ^ 32 then Some v else None, s) /\
     EVMStack_pop64 (s ++ [BVConst 256 v]) = Ok (if v <? 2 ^ 64 then Some v else None, s)).
Proof.
  exists [], 5. split; [lia|]. apply EVMStack_pop_numeral. lia.
Defined.

(** X9: [U256] addition reads byte 0 as the least significant; on two
    32-byte values it returns their sum when it is below [2^256], and
    otherwise the sum minus [2^256] plus one (the carry out is added back
    at byte 0), not the sum modulo [2^256]. *)
Theorem U256_add_val (a b : U256) :
  length a = 32%nat -> length b = 32%nat -> bytes_ok a -> bytes_ok b ->
  le_val (U256_add a b) =
    if le_val a + le_val b <? 2 ^ 256 then le_val a + le_val b
    else le_val a + le_val b - 2 ^ 256 + 1.
Proof.
  intros Hla Hlb Ha Hb. unfold U256_add.
  assert (H1 := add_bytes_spec a b false ltac:(congruence) Ha Hb).
  destruct (add_bytes a b false) as [r c] eqn:E.
  destruct H1 as (Heq & Hlr & Hr). rewrite Hla in Heq.
  change (256 ^ Z.of_nat 32) with (2 ^ 256) in Heq.
  assert (Hra := le_val_bounds a Ha). assert (Hrb := le_val_bounds b Hb). assert (Hrr := le_val_bounds r Hr).
  rewrite Hla in Hra. rewrite Hlb in Hrb. rewrite Hlr, Hla in Hrr.
  change (256 ^ Z.of_nat 32) with (2 ^ 256) in Hra, Hrb, Hrr.
  destruct c.
  - assert (H2 := add_bytes_spec r (repeat 0 32) true ltac:(rewrite repeat_length; lia) Hr (bytes_ok_repeat0 32)).
    destruct (add_bytes r (repeat 0 32) true) as [r2 c2] eqn:E2. cbn [fst].
    destruct H2 as (Heq2 & Hl2 & Hr2). rewrite Hlr, Hla, le_val_repeat0 in Heq2.
    change (256 ^ Z.of_nat 32) with (2 ^ 256) in Heq2.
    assert (Hr2b := le_val_bounds r2 Hr2). rewrite Hl2, Hlr, Hla in Hr2b.
    change (256 ^ Z.of_nat 32) with (2 ^ 256) in Hr2b.
    destruct (Z.ltb_spec (le_val a + le_val b) (2 ^ 256)); [lia|].
    destruct c2; lia.
  - destruct (Z.ltb_spec (le_val a + le_val b) (2 ^ 256)); lia.
Qed.

Lemma U256_add_val_witness :
  exists a b : U256, (length a = 32%nat /\ length b = 32%nat /\ bytes_ok a /\ bytes_ok b) /\
    le_val (U256_add a b) =
      if le_val a + le_val b <? 2 ^ 256 then le_val a + le_val b
      else le_val a + le_val b - 2 ^ 256 + 1.
Proof.
  exists (repeat 255 32), (repeat 0 31 ++ [1]).
  assert (Ha : bytes_ok (repeat 255 32)) by (repeat (constructor; [lia|]); constructor).
  assert (Hb : bytes_ok (repeat 0 31 ++ [1])) by (repeat (constructor; [lia|]); constructor).
  split; [split_and!; [reflexivity|reflexivity|exact Ha|exact Hb]|].
  apply U256_add_val; [reflexivity|reflexivity|exact Ha|exact Hb].
Defined.

(** X10: [U256] subtraction reads byte 0 as the least significant; on
    two 32-byte values it returns [a - b] when [b <= a], and otherwise
    [a - b + 2^256 - 1] (the borrow out is taken off again at byte 0),
    not the difference modulo [2^256]. *)
Theorem U256_sub_val (a b : U256) :
  length a = 32%nat -> length b = 32%nat -> bytes_ok a -> bytes_ok b ->
  le_val (U256_sub a b) =
    if le_val b <=? le_val a then le_val a - le_val b
    else le_val a - le_val b + 2 ^ 256 - 1.
Proof.
  intros Hla Hlb Ha Hb. unfold U256_sub.
  assert (H1 := sub_bytes_spec a b false ltac:(congruence) Ha Hb).
  destruct (sub_bytes a b false) as [r c] eqn:E.
  destruct H1 as (Heq & Hlr & Hr). rewrite Hla in Heq.
  change (256 ^ Z.of_nat 32) with (2 ^ 256) in Heq.
  assert (Hra := le_val_bounds a Ha). assert (Hrb := le_val_bounds b Hb). assert (Hrr := le_val_bounds r Hr).
  rewrite Hla in Hra. rewrite Hlb in Hrb. rewrite Hlr, Hla in Hrr.
  change (256 ^ Z.of_nat 32) with (2 ^ 256) in Hra, Hrb, Hrr.
  destruct c.
  - assert (H2 := sub_bytes_spec r (repeat 0 32) true ltac:(rewrite repeat_length; lia) Hr (bytes_ok_repeat0 32)).
    destruct (sub_bytes r (repeat 0 32) true) as [r2 c2] eqn:E2. cbn [fst].
    destruct H2 as (Heq2 & Hl2 & Hr2). rewrite Hlr, Hla, le_val_repeat0 in Heq2.
    change (256 ^ Z.of_nat 32) with (2 ^ 256) in Heq2.
    assert (Hr2b := le_val_bounds r2 Hr2). rewrite Hl2, Hlr, Hla in Hr2b.
    change (256 ^ Z.of_nat 32) with (2 ^ 256) in Hr2b.
    destruct (Z.leb_spec (le_val b) (le_val a)); [lia|].
    destruct c2; lia.
  - destruct (Z.leb_spec (le_val b) (le_val a)); lia.
Qed.

Lemma U256_sub_val_witness :
  exists a b : U256, (length a = 32%nat /\ length b = 32%nat /\ bytes_ok a /\ bytes_ok b) /\
    le_val (U256_sub a b) =
      if le_val b <=? le_val a then le_val a - le_val b
      else le_val a - le_val b + 2 ^ 256 - 1.
Proof.
  exists (repeat 0 31 ++ [1]), (repeat 255 32).
  assert (Ha : bytes_ok (repeat 0 31 ++ [1])) by (repeat (constructor; [lia|]); constructor).
  assert (Hb : bytes_ok (repeat 255 32)) by (repeat (constructor; [lia|]); constructor).
  split; [split_and!; [reflexivity|reflexivity|exact Ha|exact Hb]|].
  apply U256_sub_val; [reflexivity|reflexivity|exact Ha|exact Hb].
Defined.

(** X11: [U256::to_string] prints the bytes, read big-endian (byte 0 the
    most significant), as a decimal numeral that [Int::from_str] reads
    back as their value: its loop always ends, for any number of bytes.
    The value 0 prints as "0", and a nonzero value with no leading zero. *)
Theorem U256_to_string_spec (bytes : U256) :
  bytes_ok bytes ->
  exists s, U256_to_string bytes = Some s /\ Int_from_str s = Some (be_val bytes) /\
    ((be_val bytes = 0 /\ s = "0"%string) \/
     (0 < be_val bytes /\ exists c r, s = String c r /\ c <> "0"%char)).
Proof. exact (U256_to_string_val bytes). Qed.

Lemma U256_to_string_spec_witness :
  exists bytes : U256, bytes_ok bytes /\
    exists s, U256_to_string bytes = Some s /\ Int_from_str s = Some (be_val bytes) /\
    ((be_val bytes = 0 /\ s = "0"%string) \/
     (0 < be_val bytes /\ exists c r, s = String c r /\ c <> "0"%char)).
Proof.
  exists (repeat 0 31 ++ [42]).
  assert (H : bytes_ok (repeat 0 31 ++ [42])) by (repeat (constructor; [lia|]); constructor).
  split; [exact H|]. apply U256_to_string_spec. exact H.
Defined.

(** X12: [to_bv], which right-aligns the bytes in 32 zero bytes, prints
    them in decimal and parses the string back, returns the 256-bit
    numeral of the bytes read big-endian whenever there are at most 32 of
    them, and panics on its assertion otherwise. *)
Theorem to_bv_src_eq (val : list byte) :
  to_bv_src val = if (length val <=? 32)%nat then Ok (to_bv val) else Panic.
Proof.
  unfold to_bv_src. destruct (Nat.leb_spec (length val) 32) as [Hl|Hl]; [|done].
  set (result := repeat 0 (32 - length val) ++ map (fun b => Z.of_N (Byte.to_N b)) val).
  assert (Hok : bytes_ok result).
  { apply Forall_app. split; [|apply bytes_ok_map].
    apply Forall_forall; intros x Hx; apply list_elem_of_In, repeat_spec in Hx; lia. }
  destruct (U256_to_string_val result Hok) as (s & -> & -> & _).
  unfold from_int, to_bv. f_equal. f_equal.
  unfold result. rewrite be_val_zeros, <- be_val_bytes.
  apply Z.mod_small. split.
  - apply be_val_nonneg, bytes_ok_map.
  - eapply Z.lt_le_trans; [apply be_val_lt, bytes_ok_map|].
    rewrite length_map. change (2 ^ Z.of_N 256) with (256 ^ 32).
    apply Z.pow_le_mono_r; lia.
Qed.

(** X13: once the memory holds data, [Memory::set] panics exactly when
    the offset is 0 (the [u32] subtraction [offset - 1] underflows) or
    when the offset is within the data and the [u32] addition
    [offset + wsize] overflows; every other offset succeeds. *)
Theorem Memory_set_panic (d w : BV) (off : N) :
  Memory_set (Some d) off w = Panic <->
  off = 0%N \/ ((off <= get_size d)%N /\ (2 ^ 32 <= off + get_size w)%N).
Proof.
  unfold Memory_set, u32_add, u32_sub, extract, obind.
  destruct (N.ltb_spec (get_size d) off) as [H1|H1].
  - split; [done|lia].
  - destruct (N.leb_spec (2 ^ 32) (off + get_size w)) as [Ho|Ho].
    + split; [intros _; lia|done].
    + destruct (N.ltb_spec off 1) as [H0|H0].
      * destruct (N.ltb_spec (get_size d) (off + get_size w)); split; (done || lia).
      * rewrite (proj2 (andb_true_iff _ _)) by (split; [apply N.leb_le|apply N.ltb_lt]; lia).
        destruct (N.ltb_spec (get_size d) (off + get_size w)) as [H2|H2]; [split; [done|lia]|].
        rewrite (proj2 (andb_true_iff _ _)) by (split; [apply N.leb_le|apply N.ltb_lt]; lia).
        split; [done|lia].
Qed.

(** X14: once the memory holds data, a successful [Memory::set] leaves
    data of [offset + wsize] bits when the words reach past the old end,
    and otherwise of one bit more than before. *)
Theorem Memory_set_size (d w d' : BV) (off : N) :
  Memory_set (Some d) off w = Ok (Some d') ->
  get_size d' = if (get_size d <? off + get_size w)%N then (off + get_size w)%N else (get_size d + 1)%N.
Proof.
  unfold Memory_set, u32_add, u32_sub, obind.
  destruct (N.ltb_spec (get_size d) off) as [H1|H1].
  - intros H. injection H as <-. rewrite concat_size, zero_ext_size.
    destruct (N.ltb_spec (get_size d) (off + get_size w)); lia.
  - destruct (2 ^ 32 <=? off + get_size w)%N; [discriminate|].
    destruct (N.ltb_spec off 1) as [H0|H0].
    + destruct (N.ltb_spec (get_size d) (off + get_size w)); discriminate.
    + destruct (extract (off - 1) 0 d) as [lo| |] eqn:El;
        [|destruct (get_size d <? off + get_size w)%N; discriminate..].
      apply extract_Ok in El as [_ Hlo].
      destruct (N.ltb_spec (get_size d) (off + get_size w)) as [H2|H2].
      * intros H. injection H as <-. rewrite concat_size. lia.
      * destruct (extract (get_size d - off) (get_size w) d) as [up| |] eqn:Eu; try discriminate.
        apply extract_Ok in Eu as [Hb Hup].
        intros H. injection H as <-. rewrite !concat_size. lia.
Qed.

Lemma Memory_set_size_witness :
  exists (d w d' : BV) (off : N), Memory_set (Some d) off w = Ok (Some d') /\
    get_size d' = if (get_size d <? off + get_size w)%N then (off + get_size w)%N else (get_size d + 1)%N.
Proof.
  exists (BVConst 512 0), (BVConst 256 0), (BVConst 513 0), 8%N.
  assert (H : Memory_set (Some (BVConst 512 0)) 8 (BVConst 256 0) = Ok (Some (BVConst 513 0)))
    by (vm_compute; reflexivity).
  split; [exact H|]. exact (Memory_set_size _ _ _ _ H).
Defined.

(** X15: [mload] at an offset [off] on a memory that holds no data
    returns the 256-bit numeral 0 and leaves [off + 256] zero bits in the
    memory, when the [u32] addition [off + 256] does not overflow; it
    panics when it does. *)
Theorem EVMMemory_mload_fresh (off : N) :
  EVMMemory_mload None off =
  if (off + 256 <? 2 ^ 32)%N then Ok (BVConst 256 0, Some (BVConst (off + 256) 0)) else Panic.
Proof.
  unfold EVMMemory_mload, Memory_get, u32_add, u32_sub, extract, from_u64, obind.
  destruct (N.ltb_spec (off + 256) (2 ^ 32)) as [Hb|Hb].
  2: { destruct (N.leb_spec (2 ^ 32) (off + 256)); [done|lia]. }
  destruct (N.leb_spec (2 ^ 32) (off + 256)); [lia|].
  destruct (N.eqb_spec off (off + 256)); [lia|].
  cbn [get_size]. rewrite N.ltb_irrefl.
  destruct (N.ltb_spec (off + 256) 1); [lia|].
  cbn [get_size].
  rewrite (proj2 (andb_true_iff _ _)) by (split; [apply N.leb_le|apply N.ltb_lt]; lia).
  replace (off + 256 - 1 - off + 1)%N with 256%N by lia.
  rewrite Z.mod_0_l by lia. rewrite Z.shiftr_0_l, Z.mod_0_l by lia. done.
Qed.

(** X16: once the memory holds data, an MSTORE whose offset on the stack
    is the numeral 0 panics, whatever the value stored. *)
Theorem Prover_step_mstore_zero (stp : Step) (ins : Mnemonic) (d v : BV) (s : Stack) :
  opcode (op ins) = Mstore -> memory stp = Some d -> stack stp = s ++ [v; BVConst 256 0] ->
  Prover_step stp ins = Panic.
Proof.
  intros Hop Hm Hs. unfold Prover_step. rewrite Hop.
  unfold s_pop32u, s_pop32. cbn [stack set_op]. rewrite Hs.
  replace (s ++ [v; BVConst 256 0]) with ((s ++ [v]) ++ [BVConst 256 0]) by (rewrite <- app_assoc; done).
  rewrite EVMStack_pop32_zero. cbn [obind unwrap].
  unfold s_pop. cbn [stack set_stack set_op]. rewrite Stack_pop_snoc.
  cbn [obind memory set_stack set_op]. rewrite Hm. unfold EVMMemory_mstore.
  destruct (get_size v =? 256)%N; [|done].
  change (Z.to_N 0) with 0%N. rewrite Memory_set_zero. done.
Qed.

Lemma Prover_step_mstore_zero_witness :
  exists (stp : Step) (ins : Mnemonic) (d v : BV) (s : Stack),
    (opcode (op ins) = Mstore /\ memory stp = Some d /\ stack stp = s ++ [v; BVConst 256 0]) /\
    Prover_step stp ins = Panic.
Proof.
  exists {| step_op := {| pc := 0; op := x00; pushes := [] |};
            stack := [BVConst 256 1; BVConst 256 0]; memory := Some (BVConst 256 0);
            step_ret := Ret_default |},
    {| pc := 4; op := x52; pushes := [] |}, (BVConst 256 0), (BVConst 256 1), [].
  split; [split_and!; reflexivity|].
  apply (Prover_step_mstore_zero _ _ (BVConst 256 0) (BVConst 256 1) []); reflexivity.
Defined.

(** X17: a successful [Prover::step] changes the stack as its opcode says:
    an instruction that pops [k] and pushes [j] words needs [k] words,
    keeps all but the top [k] and adds [j] on top; SWAPn permutes the
    stack; RETURN and REVERT read the length, the second word from the
    top, and leave the stack as it is when the length is the numeral 0
    and pop exactly two words otherwise; the opcodes with no arm never
    succeed. *)
Theorem Prover_step_stack_effect stp ins stp' :
  Prover_step stp ins = Ok stp' ->
  match stack_effect (opcode (op ins)) with
  | PopsPushes k j =>
      (k <= length (stack stp))%nat /\
      length (stack stp') = (length (stack stp) - k + j)%nat /\
      drop j (reverse (stack stp')) = drop k (reverse (stack stp))
  | SwapEffect => stack stp' ≡ₚ stack stp
  | RetEffect =>
      exists len, Stack_get (stack stp) 1 = Ok len /\
      if is_zero_numeral len then stack stp' = stack stp
      else (2 <= length (stack stp))%nat /\ reverse (stack stp') = drop 2 (reverse (stack stp))
  | NoStep => False
  end.
Proof.
  intros H. pose proof (Prover_step_ret_len stp ins stp' H) as Hret.
  unfold Prover_step in H. destruct (opcode (op ins)); simpl in Hret |- *;
    try exact (Hret eq_refl); inv_ok; stack_rewrite.
  all: try (split_and!; rewrite ?reverse_snoc, ?length_app; simpl; (lia || reflexivity)).
  all: done.
Qed.

Lemma Prover_step_stack_effect_witness :
  exists stp ins stp', Prover_step stp ins = Ok stp' /\
  match stack_effect (opcode (op ins)) with
  | PopsPushes k j =>
      (k <= length (stack stp))%nat /\
      length (stack stp') = (length (stack stp) - k + j)%nat /\
      drop j (reverse (stack stp')) = drop k (reverse (stack stp))
  | SwapEffect => stack stp' ≡ₚ stack stp
  | RetEffect =>
      exists len, Stack_get (stack stp) 1 = Ok len /\
      if is_zero_numeral len then stack stp' = stack stp
      else (2 <= length (stack stp))%nat /\ reverse (stack stp') = drop 2 (reverse (stack stp))
  | NoStep => False
  end.
Proof.
  exists {| step_op := {| pc := 0; op := x00; pushes := [] |};
            stack := [BVConst 256 1; BVConst 256 2]; memory := None; step_ret := Ret_default |},
    {| pc := 4; op := x01; pushes := [] |},
    {| step_op := {| pc := 4; op := x01; pushes := [] |};
       stack := [BVConst 256 3]; memory := None; step_ret := Ret_default |}.
  assert (H : Prover_step {| step_op := {| pc := 0; op := x00; pushes := [] |};
            stack := [BVConst 256 1; BVConst 256 2]; memory := None; step_ret := Ret_default |}
          {| pc := 4; op := x01; pushes := [] |} =
          Ok {| step_op := {| pc := 4; op := x01; pushes := [] |};
                stack := [BVConst 256 3]; memory := None; step_ret := Ret_default |})
    by (vm_compute; reflexivity).
  split; [exact H|]. exact (Prover_step_stack_effect _ _ _ H).
Defined.

(** X18: a successful [Prover::step] records the instruction as the
    step's op and leaves the return state alone, except that RETURN may
    set the return value, REVERT also sets the reverted flag, and INVALID
    sets the reverted flag; no step sets the returned flag. *)
Theorem Prover_step_frame stp ins stp' :
  Prover_step stp ins = Ok stp' ->
  step_op stp' = ins /\
  match opcode (op ins) with
  | Return => ret (step_ret stp') = ret (step_ret stp) /\ rev (step_ret stp') = rev (step_ret stp)
  | Revert => ret (step_ret stp') = ret (step_ret stp) /\ rev (step_ret stp') = true
  | Invalid =>
      step_ret stp' = {| val := val (step_ret stp); ret := ret (step_ret stp); rev := true |}
  | _ => step_ret stp' = step_ret stp
  end.
Proof.
  unfold Prover_step. intros H. destruct (opcode (op ins)); simpl; inv_ok; stack_rewrite.
  all: done.
Qed.

Lemma Prover_step_frame_witness :
  exists stp ins stp', Prover_step stp ins = Ok stp' /\
  (step_op stp' = ins /\
   match opcode (op ins) with
   | Return => ret (step_ret stp') = ret (step_ret stp) /\ rev (step_ret stp') = rev (step_ret stp)
   | Revert => ret (step_ret stp') = ret (step_ret stp) /\ rev (step_ret stp') = true
   | Invalid =>
       step_ret stp' = {| val := val (step_ret stp); ret := ret (step_ret stp); rev := true |}
   | _ => step_ret stp' = step_ret stp
   end).
Proof.
  exists {| step_op := {| pc := 0; op := x00; pushes := [] |};
            stack := [BVConst 256 1; BVConst 256 2]; memory := None; step_ret := Ret_default |},
    {| pc := 4; op := x01; pushes := [] |},
    {| step_op := {| pc := 4; op := x01; pushes := [] |};
       stack := [BVConst 256 3]; memory := None; step_ret := Ret_default |}.
  assert (H : Prover_step {| step_op := {| pc := 0; op := x00; pushes := [] |};
            stack := [BVConst 256 1; BVConst 256 2]; memory := None; step_ret := Ret_default |}
          {| pc := 4; op := x01; pushes := [] |} =
          Ok {| step_op := {| pc := 4; op := x01; pushes := [] |};
                stack := [BVConst 256 3]; memory := None; step_ret := Ret_default |})
    by (vm_compute; reflexivity).
  split; [exact H|]. exact (Prover_step_frame _ _ _ H).
Defined.

(** X19: [Prover::step] keeps the stack at 16 words or fewer: from a
    stack of at most 16 words, a successful step leaves at most 16. *)
Theorem Prover_step_stack_bound stp ins stp' :
  (length (stack stp) <= 16)%nat -> Prover_step stp ins = Ok stp' ->
  (length (stack stp') <= 16)%nat.
Proof.
  unfold Prover_step. intros Hl H. destruct (opcode (op ins)); simpl; inv_ok; stack_rewrite.
  all: rewrite ?length_app in *; simpl in *; try lia.
  match goal with Hp : _ ≡ₚ _ |- _ => rewrite Hp end. done.
Qed.

Lemma Prover_step_stack_bound_witness :
  exists stp ins stp', ((length (stack stp) <= 16)%nat /\ Prover_step stp ins = Ok stp') /\
    (length (stack stp') <= 16)%nat.
Proof.
  exists {| step_op := {| pc := 0; op := x00; pushes := [] |};
            stack := [BVConst 256 1; BVConst 256 2]; memory := None; step_ret := Ret_default |},
    {| pc := 4; op := x01; pushes := [] |},
    {| step_op := {| pc := 4; op := x01; pushes := [] |};
       stack := [BVConst 256 3]; memory := None; step_ret := Ret_default |}.
  assert (H : Prover_step {| step_op := {| pc := 0; op := x00; pushes := [] |};
            stack := [BVConst 256 1; BVConst 256 2]; memory := None; step_ret := Ret_default |}
          {| pc := 4; op := x01; pushes := [] |} =
          Ok {| step_op := {| pc := 4; op := x01; pushes := [] |};
                stack := [BVConst 256 3]; memory := None; step_ret := Ret_default |})
    by (vm_compute; reflexivity).
  split; [split; [simpl; lia|exact H]|].
  eapply Prover_step_stack_bound; [|exact H]. simpl. lia.
Defined.
